(** * GARAGE knowledge base: scan, title extraction, image rewrite, search

    A shallow embedding of [app.py]: the folder scanner
    ([extract_instruction_info], [scan_instructions]), the title pattern
    ([TITLE_PATTERN]), the image pass of [markdown_to_html] and the search
    ([search_in_instructions]), with the properties of the specification
    stated and settled against them. *)

From Stdlib Require Import ZArith NArith String Ascii Lia.
From stdpp Require Import base decidable option list gmap sorting.

Local Open Scope N_scope.

(** ** Text

    A Python [str] is a sequence of Unicode code points. *)

Abbreviation char := N (only parsing).
Abbreviation str := (list N) (only parsing).

(** An ASCII literal of the source as code points. *)
Definition lit (s : string) : str :=
  (fun a => N_of_ascii a) <$> list_ascii_of_string s.
Arguments lit : simpl never.

(** [str.isspace] on one code point, which is also what [\s] of [re],
    [str.strip()] and [str.split()] take for white space. *)
Definition is_space (c : char) : bool :=
  ((9 <=? c) && (c <=? 13)) || ((28 <=? c) && (c <=? 32))
  || (c =? 133) || (c =? 160) || (c =? 5760)
  || ((8192 <=? c) && (c <=? 8202))
  || (c =? 8232) || (c =? 8233) || (c =? 8239) || (c =? 8287) || (c =? 12288).

Definition newline : char := 10.
Definition is_newline (c : char) : bool := c =? newline.

(** [s.startswith(p)] *)
Fixpoint startswith (s p : str) {struct p} : bool :=
  match p, s with
  | [], _ => true
  | _ :: _, [] => false
  | a :: p', b :: s' => (a =? b) && startswith s' p'
  end.

(** [s.endswith(p)] *)
Definition endswith (s p : str) : bool := startswith (rev s) (rev p).

(** [p in s]: [p] occurs in [s] as a contiguous block. *)
Fixpoint contains (s p : str) : bool :=
  startswith s p ||
  match s with
  | [] => false
  | _ :: s' => contains s' p
  end.

(** [s.find(p)], with [None] for Python's [-1]. *)
Fixpoint find (s p : str) : option nat :=
  if startswith s p then Some 0%nat
  else match s with
       | [] => None
       | _ :: s' => S <$> find s' p
       end.

(** [s[a:b]] for [0 <= a], [0 <= b]. *)
Definition slice (s : str) (a b : nat) : str := take (b - a) (drop a s).

Fixpoint lstrip (s : str) : str :=
  match s with
  | c :: s' => if is_space c then lstrip s' else s
  | [] => []
  end.

Definition rstrip (s : str) : str := rev (lstrip (rev s)).

(** [s.strip()] *)
Definition strip (s : str) : str := rstrip (lstrip s).

(** [s.split()]: the maximal runs of characters that are not white space;
    [cur] is the run being read, last character first. *)
Fixpoint split_from (cur : str) (s : str) : list str :=
  match s with
  | [] => match cur with [] => [] | _ => [rev cur] end
  | c :: s' =>
      if is_space c then
        match cur with
        | [] => split_from [] s'
        | _ => rev cur :: split_from [] s'
        end
      else split_from (c :: cur) s'
  end.

Definition split (s : str) : list str := split_from [] s.

(** ** [TITLE_PATTERN = re.compile(r'#\s+(.+)$', re.MULTILINE)] *)

(** The longest run of characters up to the next line feed: what a greedy
    [.+] takes, [.] being any character but the line feed. *)
Fixpoint take_line (s : str) : str :=
  match s with
  | [] => []
  | c :: s' => if is_newline c then [] else c :: take_line s'
  end.

(** [(.+)$] at [s]. After the longest run the text ends or a line feed
    follows, which is where [$] holds under [re.MULTILINE]; after a shorter
    run another character of the line follows and [$] fails. *)
Definition match_capture (s : str) : option str :=
  match take_line s with
  | [] => None
  | t => Some t
  end.

(** [\s+(.+)$] at [s]: white space is taken greedily, and given back one
    character at a time while the rest fails. *)
Fixpoint match_spaces (s : str) : option str :=
  match s with
  | c :: s' =>
      if is_space c then
        match match_spaces s' with
        | Some t => Some t
        | None => match_capture s'
        end
      else None
  | [] => None
  end.

Definition hash : char := 35.

(** [TITLE_PATTERN.search(content)] followed by [match.group(1)]: the
    leftmost position where the pattern matches. *)
Fixpoint title_search (content : str) : option str :=
  match content with
  | [] => None
  | c :: s' =>
      if c =? hash then
        match match_spaces s' with
        | Some t => Some t
        | None => title_search s'
        end
      else title_search s'
  end.

(** ** The data folder *)

(** The outcome of a call that may raise: the value, or [str(e)]. *)
Inductive result (A : Type) : Type :=
  | Ok (a : A)
  | Raise (msg : str).
Arguments Ok {A} a.
Arguments Raise {A} msg.

(** An entry of [os.listdir(folder_path)] and what opening and reading it
    as UTF-8 text gives. *)
Record File := { file_name : str; file_read : result str }.

(** An entry of [os.listdir(data_folder)]. Modification times are the
    finite floats of [os.path.getmtime]; only their order is used, and it is
    kept here as the order of [Z]. *)
Record Folder := {
  folder_name : str;
  folder_isdir : bool;
  folder_exists : bool;
  folder_mtime : result Z;
  folder_files : result (list File)
}.

Record DataFolder := {
  data_exists : bool;
  data_listing : result (list Folder)
}.

(** The dictionary built for an instruction; the key ['preview'] is absent
    until a search sets it. *)
Record Doc := {
  id : str;
  title : str;
  content : str;
  images : list str;
  modified : Z;
  preview : option str
}.

Definition set_title (t : str) (d : Doc) : Doc :=
  {| id := id d; title := t; content := content d; images := images d;
     modified := modified d; preview := preview d |}.
Definition set_content (c : str) (d : Doc) : Doc :=
  {| id := id d; title := title d; content := c; images := images d;
     modified := modified d; preview := preview d |}.
Definition add_image (f : str) (d : Doc) : Doc :=
  {| id := id d; title := title d; content := content d;
     images := images d ++ [f];
     modified := modified d; preview := preview d |}.
Definition set_preview (p : str) (d : Doc) : Doc :=
  {| id := id d; title := title d; content := content d; images := images d;
     modified := modified d; preview := Some p |}.

(** "Ошибка чтения файла: " *)
Definition read_error_prefix : str :=
  [1054; 1096; 1080; 1073; 1082; 1072; 32; 1095; 1090; 1077; 1085; 1080;
   1103; 32; 1092; 1072; 1081; 1083; 1072; 58; 32].

(** "Ошибка: " *)
Definition error_prefix : str := [1054; 1096; 1080; 1073; 1082; 1072; 58; 32].

Definition image_extensions : list str :=
  [lit ".jpg"; lit ".jpeg"; lit ".png"; lit ".gif"; lit ".webp"].

Definition is_md (name : str) : bool := endswith name (lit ".md").

Section Scanner.

(** [str.lower] of the Python runtime: the Unicode case mapping, not part of
    the repository. *)
Variable lower : str -> str.

Definition is_image (name : str) : bool :=
  existsb (endswith (lower name)) image_extensions.

(** The body of the inner [try] for one markdown file. *)
Definition read_md (f : File) (info : Doc) : Doc :=
  match file_read f with
  | Ok text =>
      let info :=
        match title_search text with
        | Some t => set_title t info
        | None => info
        end in
      set_content text info
  | Raise e => set_content (read_error_prefix ++ e) info
  end.

(** One turn of [for file in os.listdir(folder_path)]. *)
Definition visit_file (info : Doc) (f : File) : Doc :=
  if is_md (file_name f) then read_md f info
  else if is_image (file_name f) then add_image (file_name f) info
  else info.

(** The dictionary of the outer [except]. *)
Definition error_info (name e : str) : Doc :=
  {| id := name; title := error_prefix ++ e; content := []; images := [];
     modified := 0%Z; preview := None |}.

(** [extract_instruction_info(folder_path)], with
    [os.path.basename(folder_path)] the name of the folder. *)
Definition extract_instruction_info (fd : Folder) : Doc :=
  match (if folder_exists fd then folder_mtime fd else Ok 0%Z) with
  | Raise e => error_info (folder_name fd) e
  | Ok m =>
      let info :=
        {| id := folder_name fd; title := folder_name fd; content := [];
           images := []; modified := m; preview := None |} in
      if negb (folder_exists fd) then info
      else
        match folder_files fd with
        | Raise e => error_info (folder_name fd) e
        | Ok files => fold_left visit_file files info
        end
  end.

(** The place of [x] in a list that is already in descending order of
    [modified]: behind the elements at least as new. *)
Fixpoint insert_desc (x : Doc) (l : list Doc) : list Doc :=
  match l with
  | [] => [x]
  | y :: l' =>
      if (modified x <=? modified y)%Z then y :: insert_desc x l'
      else x :: y :: l'
  end.

(** [l.sort(key=lambda x: x['modified'], reverse=True)]: a stable sort,
    elements of equal key keep their order. [acc] is the sorted part. *)
Definition sort_desc (l : list Doc) : list Doc :=
  fold_left (fun acc x => insert_desc x acc) l [].

(** The loop of [scan_instructions]. *)
Fixpoint scan_loop (folders : list Folder) (instructions : list Doc) : list Doc :=
  match folders with
  | [] => instructions
  | fd :: rest =>
      if folder_isdir fd then
        let info := extract_instruction_info fd in
        match content info with
        | [] => scan_loop rest instructions
        | _ => scan_loop rest (instructions ++ [info])
        end
      else scan_loop rest instructions
  end.

Definition scan_instructions (data : DataFolder) : list Doc :=
  if negb (data_exists data) then []
  else
    match data_listing data with
    | Raise _ => []
    | Ok folders => sort_desc (scan_loop folders [])
    end.

End Scanner.

(** ** The image pass of [markdown_to_html] *)

Definition bang : char := 33.
Definition lbracket : char := 91.
Definition rbracket : char := 93.
Definition lparen : char := 40.
Definition rparen : char := 41.

(** The longest run of characters other than [stop], and what follows it:
    what the greedy classes [[^\]]*] and [[^)]+] take. Giving back a
    character of the run never helps, the character wanted next being
    [stop] itself. *)
Fixpoint span_until (stop : char) (s : str) : str * str :=
  match s with
  | [] => ([], [])
  | c :: s' =>
      if c =? stop then ([], s)
      else let '(run, rest) := span_until stop s' in (c :: run, rest)
  end.

(** [image_pattern] at the head of [s]: an exclamation mark, the
    alternative text in square brackets (any characters but the closing
    bracket, possibly none), the target in parentheses (one or more
    characters but the closing parenthesis). Gives groups 1 and 2 and the
    text behind the match. *)
Definition match_image (s : str) : option (str * str * str) :=
  match s with
  | c1 :: c2 :: s1 =>
      if (c1 =? bang) && (c2 =? lbracket) then
        let '(alt, r1) := span_until rbracket s1 in
        match r1 with
        | c3 :: c4 :: s2 =>
            if (c3 =? rbracket) && (c4 =? lparen) then
              let '(url, r2) := span_until rparen s2 in
              match url, r2 with
              | _ :: _, c5 :: rest =>
                  if c5 =? rparen then Some (alt, url, rest) else None
              | _, _ => None
              end
            else None
        | _ => None
        end
      else None
  | _ => None
  end.

(** [replace_image(match)], [whole] being [match.group(0)]. *)
Definition replace_image (instruction_id whole alt image_url : str) : str :=
  if startswith image_url (lit "http") then whole
  else lit "![" ++ alt ++ lit "](/image/" ++ instruction_id ++ lit "/"
       ++ image_url ++ lit ")".

(** [re.sub(image_pattern, replace_image, content)]: matches are looked for
    from left to right and do not overlap; [skip] counts the characters
    still covered by the match replaced last. *)
Fixpoint image_sub (instruction_id : str) (skip : nat) (s : str) : str :=
  match s with
  | [] => []
  | c :: s' =>
      match skip with
      | S k => image_sub instruction_id k s'
      | O =>
          match match_image s with
          | Some (alt, url, rest) =>
              let n := (length s - length rest)%nat in
              replace_image instruction_id (take n s) alt url
              ++ image_sub instruction_id (n - 1) s'
          | None => c :: image_sub instruction_id 0 s'
          end
      end
  end.

Definition rewrite_images (instruction_id content : str) : str :=
  image_sub instruction_id 0 content.

(** ** Search *)

(** "<strong>Название:</strong> " *)
Definition preview_title_label : str :=
  [60; 115; 116; 114; 111; 110; 103; 62; 1053; 1072; 1079; 1074; 1072; 1085;
   1080; 1077; 58; 60; 47; 115; 116; 114; 111; 110; 103; 62; 32].

(** "<br><strong>Контекст:</strong> ..." *)
Definition preview_context_label : str :=
  [60; 98; 114; 62; 60; 115; 116; 114; 111; 110; 103; 62; 1050; 1086; 1085;
   1090; 1077; 1082; 1089; 1090; 58; 60; 47; 115; 116; 114; 111; 110; 103;
   62; 32; 46; 46; 46].

(** The instructions handed to a search are references to dictionaries:
    the list holds locations, the store holds the dictionaries. A reference
    always points to a dictionary, so the store is read with the total
    lookup. *)
Abbreviation loc := nat (only parsing).
Abbreviation store := (gmap nat Doc) (only parsing).

Global Instance Doc_inhabited : Inhabited Doc :=
  populate {| id := []; title := []; content := []; images := [];
              modified := 0%Z; preview := None |}.

Section Search.

Variable lower : str -> str.

(** The preview text of a content match. *)
Definition content_preview (d : Doc) (query : str) (query_pos : nat) : str :=
  let text := content d in
  let start := Z.to_nat (Z.max 0 (Z.of_nat query_pos - 100)) in
  let stop := Nat.min (length text) (query_pos + length query + 100) in
  let preview := slice text start stop in
  let preview_lower := lower preview in
  let preview :=
    match find preview_lower query with
    | Some p =>
        let before := take p preview in
        let found := slice preview p (p + length query) in
        let after := drop (p + length query) preview in
        before ++ lit "<mark>" ++ found ++ lit "</mark>" ++ after
    | None => preview
    end in
  preview_title_label ++ title d ++ preview_context_label ++ preview
  ++ lit "...".

(** What one turn of the loop does with [instr]: whether it is appended to
    [results], and the store afterwards. [query] is already lowered and
    stripped. *)
Definition search_visit (query search_type search_mode : str)
    (h : store) (instr : loc) : bool * store :=
  let d := h !!! instr in
  let content_lower := lower (content d) in
  let title_lower := lower (title d) in
  if bool_decide (search_type = lit "title") then
    if contains title_lower query then
      (true, <[instr := set_preview (preview_title_label ++ title d) d]> h)
    else (false, h)
  else if bool_decide (search_type = lit "content") then
    if contains content_lower query then
      match find content_lower query with
      | Some query_pos =>
          (true, <[instr := set_preview (content_preview d query query_pos) d]> h)
      | None => (true, h)
      end
    else (false, h)
  else if bool_decide (search_type = lit "advanced") then
    if bool_decide (search_mode = lit "exact") then
      (contains content_lower query || contains title_lower query, h)
    else if bool_decide (search_mode = lit "all") then
      let words := split query in
      let content_search := forallb (contains content_lower) words in
      let title_search := forallb (contains title_lower) words in
      (content_search || title_search, h)
    else
      let words := split query in
      let content_search := existsb (contains content_lower) words in
      let title_search := existsb (contains title_lower) words in
      (content_search || title_search, h)
  else (false, h).

(** [for instr in instructions: ...] *)
Fixpoint search_loop (query search_type search_mode : str)
    (instructions results : list loc) (h : store) : list loc * store :=
  match instructions with
  | [] => (results, h)
  | instr :: rest =>
      let '(hit, h') := search_visit query search_type search_mode h instr in
      search_loop query search_type search_mode rest
        (if hit then results ++ [instr] else results) h'
  end.

(** [search_in_instructions(instructions, query, search_type, search_mode)]:
    the list returned and the store afterwards. *)
Definition search_in_instructions (instructions : list loc) (query : str)
    (search_type search_mode : str) (h : store) : list loc * store :=
  match query with
  | [] => (instructions, h)
  | _ => search_loop (strip (lower query)) search_type search_mode
           instructions [] h
  end.

End Search.

(** ** Notions used to state the properties *)

(** The case mapping on the Latin letters A to Z and the Cyrillic letters
    А to Я, leaving every other code point as it is: the instance of
    [str.lower] the definitions are run with on examples. *)
Definition lower_char (c : char) : char :=
  if ((65 <=? c) && (c <=? 90)) || ((1040 <=? c) && (c <=? 1071))
  then c + 32 else c.
Definition lower_basic (s : str) : str := lower_char <$> s.

(** [p] occurs in [s] as a contiguous block. *)
Definition substring (p s : str) : Prop := ∃ a b, s = a ++ p ++ b.

(** Two dictionaries that differ at most in the key ['preview']. *)
Definition same_text (d d' : Doc) : Prop :=
  id d = id d' ∧ title d = title d' ∧ content d = content d'
  ∧ images d = images d' ∧ modified d = modified d'.

(** Two stores whose dictionaries differ at most in ['preview']. *)
Definition store_agree (h h' : store) : Prop :=
  ∀ l : loc, same_text (h !!! l) (h' !!! l).

(** The test a search applies to one dictionary, read off the branches of
    [search_visit]. *)
Definition search_hit (lower : str -> str) (query search_type search_mode : str)
    (d : Doc) : bool :=
  let content_lower := lower (content d) in
  let title_lower := lower (title d) in
  if bool_decide (search_type = lit "title") then contains title_lower query
  else if bool_decide (search_type = lit "content") then
    contains content_lower query
  else if bool_decide (search_type = lit "advanced") then
    if bool_decide (search_mode = lit "exact") then
      contains content_lower query || contains title_lower query
    else if bool_decide (search_mode = lit "all") then
      forallb (contains content_lower) (split query)
      || forallb (contains title_lower) (split query)
    else
      existsb (contains content_lower) (split query)
      || existsb (contains title_lower) (split query)
  else false.

(** The markdown files of a folder in enumeration order, the content each
    leaves in the dictionary and the title it sets, if any. *)
Definition md_files (files : list File) : list File :=
  filter (λ f, is_md (file_name f) = true) files.
Definition md_text (f : File) : str :=
  match file_read f with
  | Ok text => text
  | Raise e => read_error_prefix ++ e
  end.
Definition md_heading (f : File) : option str :=
  match file_read f with
  | Ok text => title_search text
  | Raise _ => None
  end.

(** Newest first: [d] may stand before [d']. *)
Definition newer_first (d d' : Doc) : Prop := (modified d' ≤ modified d)%Z.

(** No document of the list stands for the folder. *)
Definition excluded (docs : list Doc) (fd : Folder) : Prop :=
  ∀ d, d ∈ docs → id d ≠ folder_name fd.

(** The pattern has a match in the text: a [#], then white space, then a
    character other than the line feed. *)
Definition has_title_match (text : str) : Prop :=
  ∃ pre ws c rest,
    text = pre ++ hash :: ws ++ c :: rest
    ∧ ws ≠ [] ∧ forallb is_space ws = true ∧ c ≠ newline.

(** The markdown image reference with alternative text [alt] and target
    [target]. *)
Definition image_ref (alt target : str) : str :=
  lit "![" ++ alt ++ lit "](" ++ target ++ lit ")".

(** ** The statements of the specification that the code does not meet,
    in its words *)

(** The folder's markdown file is empty or cannot be read. *)
Definition md_empty_or_unreadable (fd : Folder) : Prop :=
  ∃ files f, folder_files fd = Ok files ∧ md_files files = [f]
             ∧ (file_read f = Ok [] ∨ ∃ e, file_read f = Raise e).

(** "A folder with no markdown file content (empty or unreadable) is
    excluded from listings produced by the scanner." *)
Definition excludes_empty_and_unreadable (lower : str -> str) : Prop :=
  ∀ folders fd,
    fd ∈ folders → md_empty_or_unreadable fd →
    excluded (scan_instructions lower
                {| data_exists := true; data_listing := Ok folders |}) fd.

(** Reading the folder fails: its modification time, its listing or a
    markdown file in it. *)
Definition reading_fails (fd : Folder) : Prop :=
  (∃ e, folder_mtime fd = Raise e) ∨ (∃ e, folder_files fd = Raise e)
  ∨ (∃ files f e, folder_files fd = Ok files ∧ f ∈ md_files files
                  ∧ file_read f = Raise e).

(** The text is one of the error messages the scanner builds. *)
Definition error_message (t : str) : Prop :=
  ∃ e, t = error_prefix ++ e ∨ t = read_error_prefix ++ e.

(** "Errors reading a specific folder ... produce a Document with an error
    message as the title and do not abort the overall scan." *)
Definition reports_failed_folders (lower : str -> str) : Prop :=
  ∀ folders fd,
    fd ∈ folders → folder_isdir fd = true → reading_fails fd →
    ∃ d, d ∈ scan_instructions lower
               {| data_exists := true; data_listing := Ok folders |}
         ∧ id d = folder_name fd ∧ error_message (title d).

(** The lines of a text, cut at the line feeds. *)
Fixpoint lines (s : str) : list str :=
  match s with
  | [] => [[]]
  | c :: s' =>
      if is_newline c then [] :: lines s'
      else match lines s' with
           | l :: ls => (c :: l) :: ls
           | [] => [[c]]
           end
  end.

(** What follows "# " on a line that begins with it. *)
Definition heading_of_line (line : str) : option str :=
  if startswith line (lit "# ") then Some (drop 2 line) else None.

(** The title in the words of the specification: the capture of the first
    line beginning with "# ", and the folder's base name if there is no such
    line. *)
Definition spec_title (name text : str) : str :=
  default name (head (omap heading_of_line (lines text))).

(** "The extracted title is the capture of the first line beginning with
    '# ' ..., and if no such line exists the title is the folder's base
    name", for a folder with one markdown file. *)
Definition title_is_first_heading_line (lower : str -> str) : Prop :=
  ∀ fd m f text,
    folder_exists fd = true → folder_mtime fd = Ok m →
    folder_files fd = Ok [f] → is_md (file_name f) = true →
    file_read f = Ok text →
    title (extract_instruction_info lower fd)
    = spec_title (folder_name fd) text.

(** "If multiple markdown files exist, only the last one processed in
    enumeration order determines content/title": two folders of the same
    name that agree on the last markdown file give the same content and the
    same title. *)
Definition last_md_determines (lower : str -> str) : Prop :=
  ∀ fd1 fd2 files1 files2,
    folder_name fd1 = folder_name fd2 →
    folder_exists fd1 = true → folder_exists fd2 = true →
    folder_mtime fd1 = folder_mtime fd2 →
    folder_files fd1 = Ok files1 → folder_files fd2 = Ok files2 →
    (1 < length (md_files files1))%nat → (1 < length (md_files files2))%nat →
    last (md_files files1) = last (md_files files2) →
    content (extract_instruction_info lower fd1)
    = content (extract_instruction_info lower fd2)
    ∧ title (extract_instruction_info lower fd1)
      = title (extract_instruction_info lower fd2).

(** A URL scheme (RFC 3986) at the head of a text: a letter, then letters,
    digits, [+], [-] and [.], then a colon. *)
Definition is_alpha (c : char) : bool :=
  ((65 <=? c) && (c <=? 90)) || ((97 <=? c) && (c <=? 122)).
Definition is_scheme_char (c : char) : bool :=
  is_alpha c || ((48 <=? c) && (c <=? 57)) || (c =? 43) || (c =? 45)
  || (c =? 46).
Fixpoint scheme_rest (s : str) : bool :=
  match s with
  | [] => false
  | c :: s' => if c =? 58 then true else is_scheme_char c && scheme_rest s'
  end.
Definition begins_with_scheme (s : str) : bool :=
  match s with
  | [] => false
  | c :: s' => is_alpha c && scheme_rest s'
  end.

(** "If target begins with a URL scheme the reference is left unchanged by
    the image rewrite pass; otherwise it is rewritten to
    ![alt](/image/d/target)." *)
Definition rewrites_by_scheme : Prop :=
  ∀ d alt target,
    rbracket ∉ alt → target ≠ [] → rparen ∉ target →
    rewrite_images d (image_ref alt target)
    = if begins_with_scheme target then image_ref alt target
      else image_ref alt (lit "/image/" ++ d ++ lit "/" ++ target).

(** ** Inputs to run the definitions on *)

(** A store of two instructions to run searches on. *)
Definition doc_foo : Doc :=
  {| id := lit "a"; title := lit "Foo"; content := lit "bar baz";
     images := []; modified := 2%Z; preview := None |}.
Definition doc_foo_bar : Doc :=
  {| id := lit "b"; title := lit "foo bar"; content := lit "x";
     images := []; modified := 1%Z; preview := None |}.
Definition example_store : store :=
  <[0%nat := doc_foo]> (<[1%nat := doc_foo_bar]> ∅).

Definition listed_folder (name : str) (m : Z) (files : list File) : Folder :=
  {| folder_name := name; folder_isdir := true; folder_exists := true;
     folder_mtime := Ok m; folder_files := Ok files |}.

(** A folder whose markdown file cannot be read. *)
Definition folder_unreadable_md : Folder :=
  listed_folder (lit "a") 5
    [{| file_name := lit "x.md"; file_read := Raise (lit "denied") |}].

(** A folder that cannot be listed. *)
Definition folder_unlistable : Folder :=
  {| folder_name := lit "b"; folder_isdir := true; folder_exists := true;
     folder_mtime := Ok 7%Z; folder_files := Raise (lit "denied") |}.

(** A folder whose markdown file is empty, beside a picture. *)
Definition folder_empty_md : Folder :=
  listed_folder (lit "c") 6
    [{| file_name := lit "pic.PNG"; file_read := Raise (lit "binary") |};
     {| file_name := lit "x.md"; file_read := Ok [] |}].

(** Two folders with two markdown files each, the same last one. *)
Definition file_no_heading : File :=
  {| file_name := lit "b.md"; file_read := Ok (lit "no heading") |}.
Definition folder_two_md_A : Folder :=
  listed_folder (lit "d") 8
    [{| file_name := lit "a.md"; file_read := Ok (lit "# A") |};
     file_no_heading].
Definition folder_two_md_B : Folder :=
  listed_folder (lit "d") 8
    [{| file_name := lit "a.md"; file_read := Ok (lit "# B") |};
     file_no_heading].

(** A folder whose markdown file has a second-level heading only. *)
Definition folder_subheading : Folder :=
  listed_folder (lit "docs") 1
    [{| file_name := lit "x.md"; file_read := Ok (lit "## Sub") |}].

(** A folder whose markdown file starts with a first-level heading. *)
Definition folder_heading : Folder :=
  listed_folder (lit "guide") 1
    [{| file_name := lit "x.md";
        file_read := Ok (lit "# Foo" ++ [newline] ++ lit "body") |}].

(** The dictionary of an instruction once a search has returned it: the
    title and the content searches write the preview, the advanced search
    writes nothing. *)
Definition preview_update (lower : str -> str) (query search_type : str)
    (d : Doc) : Doc :=
  if bool_decide (search_type = lit "title") then
    set_preview (preview_title_label ++ title d) d
  else if bool_decide (search_type = lit "content") then
    match find (lower (content d)) query with
    | Some query_pos => set_preview (content_preview lower d query query_pos) d
    | None => d
    end
  else d.

(** ** [convert_buildin_links] *)

(** A Python [dict] from ids to dictionaries keeps its keys in the order of
    their first insertion: an association list. *)
Abbreviation dict := (list (list N * Doc)) (only parsing).

(** [d[k] = v] *)
Fixpoint dict_set (k : str) (v : Doc) (d : dict) : dict :=
  match d with
  | [] => [(k, v)]
  | (k', v') :: d' =>
      if bool_decide (k' = k) then (k, v) :: d' else (k', v') :: dict_set k v d'
  end.

(** [d.get(k)] *)
Fixpoint dict_get (k : str) (d : dict) : option Doc :=
  match d with
  | [] => None
  | (k', v) :: d' => if bool_decide (k' = k) then Some v else dict_get k d'
  end.

(** [{instr['id']: instr for instr in instructions}] *)
Definition instructions_by_id (instructions : list Doc) : dict :=
  fold_left (λ d instr, dict_set (id instr) instr d) instructions [].

Definition buildin_prefix : str := lit "https://buildin.ai/share/".

(** The class [[a-f0-9-]]. *)
Definition is_buildin_char (c : char) : bool :=
  ((97 <=? c) && (c <=? 102)) || ((48 <=? c) && (c <=? 57)) || (c =? 45).

(** The longest run of characters of a class, and what follows it. *)
Fixpoint span_while (p : char → bool) (s : str) : str * str :=
  match s with
  | [] => ([], [])
  | c :: s' =>
      if p c then let '(run, rest) := span_while p s' in (c :: run, rest)
      else ([], s)
  end.

(** [buildin_pattern] at the head of [s]: the literal address, then one or
    more characters of the class, as many as there are. Gives group 1 and
    the text behind the match. *)
Definition match_buildin (s : str) : option (str * str) :=
  if startswith s buildin_prefix then
    match span_while is_buildin_char (drop (length buildin_prefix) s) with
    | ([], _) => None
    | (buildin_id, rest) => Some (buildin_id, rest)
    end
  else None.

(** The loop of [replace_link]: the key of the first instruction, in the
    order of the dictionary, whose id or title holds [buildin_id]. *)
Fixpoint find_instruction (buildin_id : str) (d : dict) : option str :=
  match d with
  | [] => None
  | (instr_id, instr_info) :: d' =>
      if contains instr_id buildin_id || contains (title instr_info) buildin_id
      then Some instr_id
      else find_instruction buildin_id d'
  end.

(** [replace_link(match)], [whole] being [match.group(0)]. *)
Definition replace_link (instructions_dict : dict) (whole buildin_id : str)
    : str :=
  match find_instruction buildin_id instructions_dict with
  | Some instr_id => lit "/instruction/" ++ instr_id
  | None => whole
  end.

(** [re.sub(buildin_pattern, replace_link, content)], as [image_sub]. *)
Fixpoint buildin_sub (instructions_dict : dict) (skip : nat) (s : str) : str :=
  match s with
  | [] => []
  | c :: s' =>
      match skip with
      | S k => buildin_sub instructions_dict k s'
      | O =>
          match match_buildin s with
          | Some (buildin_id, rest) =>
              let n := (length s - length rest)%nat in
              replace_link instructions_dict (take n s) buildin_id
              ++ buildin_sub instructions_dict (n - 1) s'
          | None => c :: buildin_sub instructions_dict 0 s'
          end
      end
  end.

Definition convert_buildin_links (content : str) (instructions_dict : dict)
    : str :=
  buildin_sub instructions_dict 0 content.

(** The first character of [buildin_prefix]. *)
Definition letter_h : char := 104.

(** ** [striptags_filter] *)

Definition less_than : char := 60.
Definition greater_than : char := 62.
Definition ampersand : char := 38.
Definition double_quote : char := 34.
Definition single_quote : char := 39.

(** The pattern [<[^>]*>] at the head of [s]: a [<], then the longest run
    of characters other than [>], which must be followed by a [>]. Gives
    the text behind the match. *)
Definition match_tag (s : str) : option str :=
  match s with
  | c :: s' =>
      if c =? less_than then
        match span_until greater_than s' with
        | (_, _ :: rest) => Some rest
        | (_, []) => None
        end
      else None
  | [] => None
  end.

(** [re.sub(r'<[^>]*>', '', text)], as [image_sub]. *)
Fixpoint tag_sub (skip : nat) (s : str) : str :=
  match s with
  | [] => []
  | c :: s' =>
      match skip with
      | S k => tag_sub k s'
      | O =>
          match match_tag s with
          | Some rest => tag_sub (length s - length rest - 1) s'
          | None => c :: tag_sub 0 s'
          end
      end
  end.

(** [s.replace(old, new)] for [old] of one character. *)
Definition replace_char (old : char) (new : str) (s : str) : str :=
  s ≫= (λ c, if c =? old then new else [c]).

(** [html.escape(s)], with quotes: the ampersand first, then the angle
    brackets and the two quotes. *)
Definition html_escape (s : str) : str :=
  replace_char single_quote (lit "&#x27;")
    (replace_char double_quote (lit "&quot;")
       (replace_char greater_than (lit "&gt;")
          (replace_char less_than (lit "&lt;")
             (replace_char ampersand (lit "&amp;") s)))).

Definition striptags_filter (text : str) : str := html_escape (tag_sub 0 text).

(** ** The routes *)

(** An entry of the list [/api/search] returns. *)
Record ApiResult := {
  result_id : str;
  result_title : str;
  result_preview : str
}.

(** "Найдено в названии: " *)
Definition found_in_title : str :=
  [1053; 1072; 1081; 1076; 1077; 1085; 1086; 32; 1074; 32; 1085; 1072; 1079;
   1074; 1072; 1085; 1080; 1080; 58; 32].

(** "Ошибка преобразования содержимого: " *)
Definition conversion_error : str :=
  [1054; 1096; 1080; 1073; 1082; 1072; 32; 1087; 1088; 1077; 1086; 1073;
   1088; 1072; 1079; 1086; 1074; 1072; 1085; 1080; 1103; 32; 1089; 1086;
   1076; 1077; 1088; 1078; 1080; 1084; 1086; 1075; 1086; 58; 32].

(** [a <= b] on [str]: the order of the code points, position by position,
    a proper prefix coming first. *)
Fixpoint str_leb (a b : str) : bool :=
  match a, b with
  | [], _ => true
  | _ :: _, [] => false
  | x :: a', y :: b' =>
      if x <? y then true else if y <? x then false else str_leb a' b'
  end.

(** The place of [x] in a sorted list: behind the elements that stay before
    it. *)
Fixpoint insert_by {A} (stays : A → A → bool) (x : A) (l : list A) : list A :=
  match l with
  | [] => [x]
  | y :: l' => if stays y x then y :: insert_by stays x l' else x :: y :: l'
  end.

(** [list.sort]: a stable sort, [stays y x] telling that [y], which came
    before [x], stays before it. *)
Definition stable_sort {A} (stays : A → A → bool) (l : list A) : list A :=
  fold_left (λ acc x, insert_by stays x acc) l [].

(** The dictionaries of a scan placed in the store, at the locations from
    [n] upward. *)
Fixpoint alloc (n : loc) (docs : list Doc) (h : store) : list loc * store :=
  match docs with
  | [] => ([], h)
  | d :: docs' =>
      let '(ls, h') := alloc (S n) docs' (<[n := d]> h) in (n :: ls, h')
  end.

(** What [/instruction/<id>] hands to its template. *)
Inductive Page :=
  | NotFound (instruction_id : str)
  | Instruction (page_title page_content : str) (related : list Doc)
      (total_instructions : nat) (page_modified : Z).

Section Routes.

Variable lower : str -> str.

(** [markdown.markdown] of the Python-Markdown package with the extensions
    of the source: the HTML, or the exception it raises. *)
Variable markdown : str -> result str.

(** The test of [api_search] on one instruction. *)
Definition api_match (query_lower search_type : str) (instr : Doc) : bool :=
  if bool_decide (search_type = lit "title") then
    contains (lower (title instr)) query_lower
  else if bool_decide (search_type = lit "content") then
    contains (lower (content instr)) query_lower
  else false.

(** The entry [api_search] appends for an instruction that matches. *)
Definition api_result (query query_lower search_type : str) (instr : Doc)
    : ApiResult :=
  let preview :=
    if bool_decide (search_type = lit "title") then
      found_in_title ++ title instr
    else
      let content_lower := lower (content instr) in
      match find content_lower query_lower with
      | Some pos =>
          let start := Z.to_nat (Z.max 0 (Z.of_nat pos - 50)) in
          let stop :=
            Nat.min (length (content instr)) (pos + length query + 50) in
          lit "..." ++ slice (content instr) start stop ++ lit "..."
      | None => take 150 (content instr) ++ lit "..."
      end in
  {| result_id := id instr; result_title := title instr;
     result_preview := preview |}.

Fixpoint api_search_loop (query query_lower search_type : str)
    (instructions : list Doc) (results : list ApiResult) : list ApiResult :=
  match instructions with
  | [] => results
  | instr :: rest =>
      api_search_loop query query_lower search_type rest
        (if api_match query_lower search_type instr
         then results ++ [api_result query query_lower search_type instr]
         else results)
  end.

(** [api_search()]: the list under the key ['results']. *)
Definition api_search (data : DataFolder) (query search_type : str)
    : list ApiResult :=
  if (length query <? 2)%nat then []
  else
    take 10 (api_search_loop query (lower query) search_type
               (scan_instructions lower data) []).

(** The sort of the results in [index()]. *)
Definition sort_results (sort : str) (h : store) (instructions : list loc)
    : list loc :=
  if bool_decide (sort = lit "date_new") then
    stable_sort (λ y x, (modified (h !!! x) <=? modified (h !!! y))%Z)
      instructions
  else if bool_decide (sort = lit "date_old") then
    stable_sort (λ y x, (modified (h !!! y) <=? modified (h !!! x))%Z)
      instructions
  else if bool_decide (sort = lit "title") then
    stable_sort (λ y x, str_leb (lower (title (h !!! y)))
                          (lower (title (h !!! x))))
      instructions
  else instructions.

(** [index()]: the instructions and the total handed to the template. *)
Definition index (data : DataFolder) (query search_type search_mode sort : str)
    : list Doc * nat :=
  let instructions := scan_instructions lower data in
  let shown :=
    match query with
    | [] => instructions
    | _ =>
        let '(ls, h) := alloc 0 instructions ∅ in
        let '(found, h') :=
          search_in_instructions lower ls query search_type search_mode h in
        (λ l, h' !!! l) <$> sort_results sort h' found
    end in
  (shown, length (scan_instructions lower data)).

(** [markdown_to_html(content, instruction_id, instructions_dict)] *)
Definition markdown_to_html (content instruction_id : str)
    (instructions_dict : dict) : str :=
  match markdown (rewrite_images instruction_id
                    (convert_buildin_links content instructions_dict)) with
  | Ok html => html
  | Raise e => lit "<p>" ++ conversion_error ++ e ++ lit "</p>"
  end.

(** The loop over [instructions_dict.items()] in [show_instruction]. *)
Fixpoint related_instructions (instructions_dict : dict)
    (instruction_id content : str) : list Doc :=
  match instructions_dict with
  | [] => []
  | (instr_id, instr_info) :: rest =>
      if bool_decide (instr_id ≠ instruction_id)
         && (contains content instr_id || contains content (title instr_info))
      then instr_info :: related_instructions rest instruction_id content
      else related_instructions rest instruction_id content
  end.

(** [show_instruction(instruction_id)] *)
Definition show_instruction (data : DataFolder) (instruction_id : str) : Page :=
  let instructions := scan_instructions lower data in
  let instructions_dict := instructions_by_id instructions in
  match dict_get instruction_id instructions_dict with
  | None => NotFound instruction_id
  | Some instruction =>
      Instruction (title instruction)
        (markdown_to_html (content instruction) instruction_id
           instructions_dict)
        (related_instructions instructions_dict instruction_id
           (content instruction))
        (length instructions) (modified instruction)
  end.

End Routes.

(** A renderer that returns its input, to run the routes with. *)
Definition markdown_plain (s : str) : result str := Ok s.

(** [t] is the capture of the leftmost match of the title pattern in
    [text], as [re.search] finds it: the match begins at a [#] followed by
    white space [ws] and then a character other than the line feed; the
    capture [t] runs from there to the end of its line; no match begins
    further left; and of the matches that begin at this [#] it is the one
    with the longest white space. *)
Definition leftmost_title_match (text t : str) : Prop :=
  ∃ pre ws post,
    text = pre ++ hash :: ws ++ t ++ post
    ∧ ws ≠ [] ∧ forallb is_space ws = true
    ∧ t ≠ [] ∧ (newline ∉ t) ∧ (post = [] ∨ head post = Some newline)
    ∧ ∀ pre1 ws1 c rest1,
        text = pre1 ++ hash :: ws1 ++ c :: rest1 →
        ws1 ≠ [] → forallb is_space ws1 = true → c ≠ newline →
        (length pre ≤ length pre1)%nat
        ∧ (length pre1 = length pre → (length ws1 ≤ length ws)%nat).

(** [ident] is the identifier of a share link of [content]: it stands
    behind the address of a share link and is the whole run of identifier
    characters there. *)
Definition share_link_in (content ident : str) : Prop :=
  ∃ pre post,
    content = pre ++ buildin_prefix ++ ident ++ post
    ∧ ident ≠ [] ∧ forallb is_buildin_char ident = true
    ∧ (post = [] ∨ ∃ c r, post = c :: r ∧ is_buildin_char c = false).

(** * Properties *)

(** ** Text *)

Lemma startswith_prefix (s p : str) : startswith s p = true ↔ p `prefix_of` s.
Proof.
  revert s. induction p as [|a p IH]; intros s; simpl.
  - split; [intros _; apply prefix_nil | done].
  - destruct s as [|b s].
    + split; [done | intros H; by apply prefix_nil_not in H].
    + rewrite andb_true_iff, N.eqb_eq, IH. split.
      * intros [-> H]. by apply prefix_cons.
      * intros H. split; [by apply prefix_cons_inv_1 in H | by apply prefix_cons_inv_2 in H].
Qed.

Lemma startswith_app (p r : str) : startswith (p ++ r) p = true.
Proof. apply startswith_prefix. by exists r. Qed.

Lemma contains_substring (s p : str) : contains s p = true ↔ substring p s.
Proof.
  induction s as [|c s IH].
  - simpl. rewrite orb_false_r, startswith_prefix. split.
    + intros [r ->]. by exists [], r.
    + intros (a & b & H). symmetry in H.
      apply app_eq_nil in H as [-> H]. apply app_eq_nil in H as [-> ->].
      apply prefix_nil.
  - cbn [contains]. rewrite orb_true_iff, IH, startswith_prefix. split.
    + intros [[r Hr] | (a & b & ->)].
      * exists [], r. by rewrite Hr.
      * by exists (c :: a), b.
    + intros (a & b & H). destruct a as [|c' a]; simpl in H.
      * left. by exists b.
      * right. exists a, b. by injection H.
Qed.

Lemma lstrip_spaces (s : str) : forallb is_space s = true → lstrip s = [].
Proof.
  induction s as [|c s IH]; [done |]. simpl.
  intros [Hc Hs]%andb_true_iff. rewrite Hc. auto.
Qed.

Lemma strip_spaces (s : str) : forallb is_space s = true → strip s = [].
Proof. intros H. unfold strip. by rewrite (lstrip_spaces s H). Qed.

(** ** Search *)

Lemma same_text_refl (d : Doc) : same_text d d.
Proof. by repeat split. Qed.

Lemma same_text_trans (d1 d2 d3 : Doc) :
  same_text d1 d2 → same_text d2 d3 → same_text d1 d3.
Proof.
  intros (? & ? & ? & ? & ?) (? & ? & ? & ? & ?).
  repeat split; congruence.
Qed.

Lemma same_text_set_preview (p : str) (d : Doc) : same_text d (set_preview p d).
Proof. by repeat split. Qed.

Lemma store_agree_insert (h : store) (l : loc) (p : str) :
  store_agree h (<[l := set_preview p (h !!! l)]> h).
Proof.
  intros l'. destruct (decide (l = l')) as [<- | Hne].
  - rewrite lookup_total_insert_eq. apply same_text_set_preview.
  - rewrite lookup_total_insert_ne by done. apply same_text_refl.
Qed.

Section SearchProperties.

Variable lower : str -> str.

Lemma search_hit_same_text (q st sm : str) (d d' : Doc) :
  same_text d d' → search_hit lower q st sm d = search_hit lower q st sm d'.
Proof.
  intros (_ & Ht & Hc & _). unfold search_hit. by rewrite Ht, Hc.
Qed.

Lemma search_visit_hit (q st sm : str) (h : store) (l : loc) :
  (search_visit lower q st sm h l).1 = search_hit lower q st sm (h !!! l).
Proof.
  unfold search_visit, search_hit.
  repeat case_bool_decide; try done.
  - by destruct (contains _ _).
  - destruct (contains _ _); [| done]. by destruct (find _ _).
Qed.

Lemma search_visit_store (q st sm : str) (h : store) (l : loc) :
  store_agree h (search_visit lower q st sm h l).2.
Proof.
  unfold search_visit.
  repeat case_bool_decide; repeat case_match; simpl;
    first [apply store_agree_insert | intros ?; apply same_text_refl].
Qed.

(** Outside the title and content searches nothing is written. *)
Lemma search_visit_advanced (q st sm : str) (h : store) (l : loc) :
  st ≠ lit "title" → st ≠ lit "content" →
  (search_visit lower q st sm h l).2 = h.
Proof.
  intros H1 H2. unfold search_visit.
  rewrite (bool_decide_eq_false_2 _ H1), (bool_decide_eq_false_2 _ H2).
  by repeat case_bool_decide.
Qed.

(** The loop appends to [results], in order, the instructions that pass the
    test, and changes no text on the way. *)
Lemma search_loop_filter (q st sm : str) (h0 : store) (instrs : list loc) :
  ∀ (results : list loc) (h : store),
    store_agree h0 h →
    (search_loop lower q st sm instrs results h).1
    = results ++ filter (λ l, search_hit lower q st sm (h0 !!! l) = true) instrs
    ∧ store_agree h0 (search_loop lower q st sm instrs results h).2.
Proof.
  induction instrs as [|l instrs IH]; intros results h Hag; simpl.
  - by rewrite app_nil_r.
  - pose proof (search_visit_hit q st sm h l) as Hhit.
    pose proof (search_visit_store q st sm h l) as Hst.
    destruct (search_visit lower q st sm h l) as [hit h']. simpl in *.
    assert (store_agree h0 h') as Hag'.
    { intros l'. eapply same_text_trans; [apply Hag | apply Hst]. }
    rewrite <- (search_hit_same_text q st sm _ _ (Hag l)) in Hhit.
    destruct (IH (if hit then results ++ [l] else results) h' Hag') as [-> ?].
    split; [| done]. subst hit.
    destruct (search_hit lower q st sm (h0 !!! l)) eqn:E.
    + rewrite filter_cons_True by done. by rewrite <- app_assoc.
    + rewrite filter_cons_False by (by rewrite E). done.
Qed.

Lemma search_loop_advanced (q st sm : str) (instrs : list loc) :
  st ≠ lit "title" → st ≠ lit "content" →
  ∀ (results : list loc) (h : store),
    (search_loop lower q st sm instrs results h).2 = h.
Proof.
  intros H1 H2. induction instrs as [|l instrs IH]; intros results h; simpl.
  - done.
  - pose proof (search_visit_advanced q st sm h l H1 H2) as Hh.
    destruct (search_visit lower q st sm h l) as [hit h']. simpl in Hh.
    subst h'. apply IH.
Qed.

Lemma search_results (instrs : list loc) (q st sm : str) (h : store) :
  q ≠ [] →
  (search_in_instructions lower instrs q st sm h).1
  = filter (λ l, search_hit lower (strip (lower q)) st sm (h !!! l) = true) instrs
  ∧ store_agree h (search_in_instructions lower instrs q st sm h).2.
Proof.
  intros Hq. unfold search_in_instructions. destruct q as [|c q]; [done |].
  apply (search_loop_filter _ st sm h instrs [] h).
  intros l. apply same_text_refl.
Qed.

End SearchProperties.

Lemma advanced_not_title : lit "advanced" ≠ lit "title".
Proof. by vm_compute. Qed.
Lemma advanced_not_content : lit "advanced" ≠ lit "content".
Proof. by vm_compute. Qed.
Lemma all_not_exact : lit "all" ≠ lit "exact".
Proof. by vm_compute. Qed.
Lemma any_not_exact : lit "any" ≠ lit "exact".
Proof. by vm_compute. Qed.
Lemma any_not_all : lit "any" ≠ lit "all".
Proof. by vm_compute. Qed.

Lemma search_hit_all (lower : str -> str) (q : str) (d : Doc) :
  search_hit lower q (lit "advanced") (lit "all") d
  = forallb (contains (lower (content d))) (split q)
    || forallb (contains (lower (title d))) (split q).
Proof.
  unfold search_hit.
  rewrite (bool_decide_eq_false_2 _ advanced_not_title).
  rewrite (bool_decide_eq_false_2 _ advanced_not_content).
  rewrite (bool_decide_eq_false_2 _ all_not_exact).
  by rewrite !bool_decide_eq_true_2 by done.
Qed.

Lemma search_hit_any (lower : str -> str) (q : str) (d : Doc) :
  search_hit lower q (lit "advanced") (lit "any") d
  = existsb (contains (lower (content d))) (split q)
    || existsb (contains (lower (title d))) (split q).
Proof.
  unfold search_hit.
  rewrite (bool_decide_eq_false_2 _ advanced_not_title).
  rewrite (bool_decide_eq_false_2 _ advanced_not_content).
  rewrite (bool_decide_eq_false_2 _ any_not_exact).
  rewrite (bool_decide_eq_false_2 _ any_not_all).
  by rewrite !bool_decide_eq_true_2 by done.
Qed.

Lemma forallb_contains (s : str) (words : list str) :
  forallb (contains s) words = true ↔ ∀ w, w ∈ words → substring w s.
Proof.
  rewrite forallb_forall. split; intros H w Hw.
  - apply contains_substring, H. by apply list_elem_of_In.
  - apply contains_substring, H. by apply list_elem_of_In.
Qed.

Lemma filter_all {A} (P : A → Prop) `{∀ x, Decision (P x)} (l : list A) :
  (∀ x, x ∈ l → P x) → filter P l = l.
Proof.
  induction l as [|x l IH]; intros H'; [done |].
  rewrite filter_cons_True by (apply H'; left).
  f_equal. apply IH. intros y Hy. apply H'. by right.
Qed.

Lemma filter_none {A} (P : A → Prop) `{∀ x, Decision (P x)} (l : list A) :
  (∀ x, x ∈ l → ¬ P x) → filter P l = [].
Proof.
  induction l as [|x l IH]; intros H'; [done |].
  rewrite filter_cons_False by (apply H'; left).
  apply IH. intros y Hy. apply H'. by right.
Qed.

Lemma lower_char_space (c : char) : is_space c = true → lower_char c = c.
Proof.
  unfold is_space, lower_char. intros Hs.
  destruct (((65 <=? c) && (c <=? 90)) || ((1040 <=? c) && (c <=? 1071))) eqn:E;
    [| done].
  rewrite !orb_true_iff, !andb_true_iff, !N.leb_le, !N.eqb_eq in Hs.
  rewrite orb_true_iff, !andb_true_iff, !N.leb_le in E. lia.
Qed.

Lemma lower_basic_spaces (s : str) :
  forallb is_space s = true → forallb is_space (lower_basic s) = true.
Proof.
  induction s as [|c s IH]; [done |]. simpl.
  intros [Hc Hs]%andb_true_iff.
  rewrite (lower_char_space c Hc), Hc. simpl. auto.
Qed.

(** C7. Searching with the empty query returns the list it was given, the
    same list with the same dictionaries, whatever the search type and
    mode. *)
Theorem search_empty_query (lower : str -> str) (instrs : list loc)
    (st sm : str) (h : store) :
  search_in_instructions lower instrs [] st sm h = (instrs, h).
Proof. reflexivity. Qed.

(** C6. Advanced search in mode [all] with a non-empty query returns an
    instruction exactly when every word of the (lowered, stripped) query
    occurs in its lowered title, or every word occurs in its lowered
    content: the words are tested field by field, so words found partly in
    the title and partly in the content give no match. *)
Theorem search_all_per_field (lower : str -> str) (instrs : list loc)
    (q : str) (h : store) (l : loc) :
  q ≠ [] →
  l ∈ (search_in_instructions lower instrs q (lit "advanced") (lit "all") h).1
  ↔ l ∈ instrs
    ∧ ((∀ w, w ∈ split (strip (lower q)) →
             substring w (lower (title (h !!! l))))
       ∨ (∀ w, w ∈ split (strip (lower q)) →
               substring w (lower (content (h !!! l))))).
Proof.
  intros Hq.
  destruct (search_results lower instrs q (lit "advanced") (lit "all") h Hq)
    as [-> _].
  rewrite list_elem_of_filter, search_hit_all, orb_true_iff.
  rewrite !forallb_contains. tauto.
Qed.

Lemma search_all_per_field_witness :
  lit "foo bar" ≠ []
  ∧ (1%nat ∈ (search_in_instructions lower_basic [0; 1]%nat (lit "foo bar")
                (lit "advanced") (lit "all") example_store).1
     ↔ 1%nat ∈ [0; 1]%nat
       ∧ ((∀ w, w ∈ split (strip (lower_basic (lit "foo bar"))) →
                substring w (lower_basic (title (example_store !!! 1%nat))))
          ∨ (∀ w, w ∈ split (strip (lower_basic (lit "foo bar"))) →
                  substring w (lower_basic (content (example_store !!! 1%nat)))))).
Proof.
  split; [done |]. apply search_all_per_field. done.
Defined.

(** Title "Foo" and content "bar baz" hold the two words of "foo bar"
    between them, and the instruction is not returned. *)
Example search_all_split_across_fields :
  (search_in_instructions lower_basic [0; 1]%nat (lit "foo bar")
     (lit "advanced") (lit "all") example_store).1 = [1%nat].
Proof. by vm_compute. Qed.

Lemma sublist_filter_length {A} (P : A → Prop) `{∀ x, Decision (P x)}
    (l1 l2 : list A) :
  l1 `sublist_of` l2 → (length (filter P l1) ≤ length (filter P l2))%nat.
Proof.
  induction 1 as [| x l1 l2 _ IH | x l1 l2 _ IH]; [done | |].
  - rewrite !filter_cons. case_decide; simpl; lia.
  - rewrite filter_cons. case_decide; simpl; lia.
Qed.

(** C9. The list a search with a non-empty query returns is a subsequence
    of the list it was given: the same references in the same relative
    order, each of them at most as often as the input holds it, so none
    twice when the input has no duplicates; the dictionaries they point to
    are changed in ['preview'] at most. *)
Theorem search_subsequence (lower : str -> str) (instrs : list loc)
    (q st sm : str) (h : store) :
  q ≠ [] →
  (search_in_instructions lower instrs q st sm h).1 `sublist_of` instrs
  ∧ (∀ l, l ∈ (search_in_instructions lower instrs q st sm h).1 → l ∈ instrs)
  ∧ (∀ l, (length (filter (λ x, x = l)
                     (search_in_instructions lower instrs q st sm h).1)
           ≤ length (filter (λ x, x = l) instrs))%nat)
  ∧ (NoDup instrs → NoDup (search_in_instructions lower instrs q st sm h).1)
  ∧ store_agree h (search_in_instructions lower instrs q st sm h).2.
Proof.
  intros Hq. destruct (search_results lower instrs q st sm h Hq) as [-> Hst].
  split_and!.
  - apply sublist_filter.
  - intros l Hl. by apply list_elem_of_filter in Hl as [_ ?].
  - intros l. apply sublist_filter_length, sublist_filter.
  - intros Hnd. by apply NoDup_filter.
  - done.
Qed.

Lemma search_subsequence_witness :
  lit "BAR" ≠ []
  ∧ (search_in_instructions lower_basic [0; 1]%nat (lit "BAR") (lit "content")
       (lit "any") example_store).1 `sublist_of` [0; 1]%nat
  ∧ store_agree example_store
      (search_in_instructions lower_basic [0; 1]%nat (lit "BAR")
         (lit "content") (lit "any") example_store).2.
Proof.
  assert (lit "BAR" ≠ []) as Hq by done.
  pose proof (search_subsequence lower_basic [0; 1]%nat (lit "BAR")
                (lit "content") (lit "any") example_store Hq)
    as (Hsub & _ & _ & _ & Hst).
  split_and!; [exact Hq | exact Hsub | exact Hst].
Defined.

(** The content search of "BAR" returns the first instruction, the same
    reference, and writes its preview. *)
Example search_content_preview :
  let '(results, h) :=
    search_in_instructions lower_basic [0; 1]%nat (lit "BAR") (lit "content")
      (lit "any") example_store in
  results = [0%nat]
  ∧ preview (h !!! 0%nat)
    = Some (preview_title_label ++ lit "Foo" ++ preview_context_label
            ++ lit "<mark>bar</mark> baz" ++ lit "...")
  ∧ preview (h !!! 1%nat) = None.
Proof. by vm_compute. Qed.

(** C10. A non-empty query of white space only: advanced search in mode
    [all] returns every instruction of the list, in mode [any] none. The
    stripped query splits into no words. [str.lower] maps white space to
    white space. *)
Theorem search_whitespace_query (lower : str -> str) (instrs : list loc)
    (q : str) (h : store) :
  (∀ s, forallb is_space s = true → forallb is_space (lower s) = true) →
  q ≠ [] →
  forallb is_space q = true →
  search_in_instructions lower instrs q (lit "advanced") (lit "all") h
  = (instrs, h)
  ∧ search_in_instructions lower instrs q (lit "advanced") (lit "any") h
    = ([], h).
Proof.
  intros Hlower Hq Hsp.
  assert (strip (lower q) = []) as Hstrip by (apply strip_spaces; auto).
  split; apply injective_projections.
  - destruct (search_results lower instrs q (lit "advanced") (lit "all") h Hq)
      as [-> _].
    rewrite Hstrip. simpl. apply filter_all. intros l _.
    by rewrite search_hit_all.
  - unfold search_in_instructions. destruct q; [done |].
    apply search_loop_advanced;
      [apply advanced_not_title | apply advanced_not_content].
  - destruct (search_results lower instrs q (lit "advanced") (lit "any") h Hq)
      as [-> _].
    rewrite Hstrip. simpl. apply filter_none. intros l _.
    by rewrite search_hit_any.
  - unfold search_in_instructions. destruct q; [done |].
    apply search_loop_advanced;
      [apply advanced_not_title | apply advanced_not_content].
Qed.

Lemma search_whitespace_query_witness :
  (∀ s, forallb is_space s = true → forallb is_space (lower_basic s) = true)
  ∧ [32; 9; 32] ≠ []
  ∧ forallb is_space [32; 9; 32] = true
  ∧ search_in_instructions lower_basic [0; 1]%nat [32; 9; 32]
      (lit "advanced") (lit "all") example_store
    = ([0; 1]%nat, example_store)
  ∧ search_in_instructions lower_basic [0; 1]%nat [32; 9; 32]
      (lit "advanced") (lit "any") example_store
    = ([], example_store).
Proof.
  split; [exact lower_basic_spaces |].
  split; [done |]. split; [reflexivity |].
  apply search_whitespace_query; [exact lower_basic_spaces | done | reflexivity].
Defined.

(** ** The scanner *)

Section ScannerProperties.

Variable lower : str -> str.

Lemma visit_file_id (info : Doc) (f : File) :
  id (visit_file lower info f) = id info.
Proof.
  unfold visit_file, read_md.
  repeat case_match; reflexivity.
Qed.

Lemma visit_file_not_md (info : Doc) (f : File) :
  is_md (file_name f) = false →
  content (visit_file lower info f) = content info
  ∧ title (visit_file lower info f) = title info.
Proof.
  intros H. unfold visit_file. rewrite H. by case_match.
Qed.

Lemma visit_file_md (info : Doc) (f : File) :
  is_md (file_name f) = true →
  content (visit_file lower info f) = md_text f
  ∧ title (visit_file lower info f) = default (title info) (md_heading f).
Proof.
  intros H. unfold visit_file, read_md, md_text, md_heading. rewrite H.
  destruct (file_read f) as [text | e]; [| done].
  by destruct (title_search text).
Qed.

Lemma md_files_snoc (files : list File) (f : File) :
  md_files (files ++ [f])
  = md_files files ++ (if is_md (file_name f) then [f] else []).
Proof.
  unfold md_files. rewrite filter_app. f_equal.
  destruct (is_md (file_name f)) eqn:E.
  - by rewrite filter_cons_True.
  - rewrite filter_cons_False; [done | by rewrite E].
Qed.

(** The loop over the files of a folder leaves the content of the last
    markdown file and the title of the last one that set a title. *)
Lemma fold_visit_file (files : list File) (info : Doc) :
  let info' := fold_left (visit_file lower) files info in
  id info' = id info
  ∧ content info' = from_option md_text (content info) (last (md_files files))
  ∧ title info'
    = default (title info) (last (omap md_heading (md_files files))).
Proof.
  induction files as [|f files IH] using rev_ind; [done |].
  cbn zeta in *. rewrite fold_left_app. cbn [fold_left].
  destruct IH as (IHid & IHc & IHt).
  rewrite visit_file_id, md_files_snoc. split; [done |].
  destruct (is_md (file_name f)) eqn:E.
  - destruct (visit_file_md (fold_left (visit_file lower) files info) f E)
      as [-> ->].
    rewrite last_snoc, omap_app. split; [done |]. rewrite IHt.
    assert (omap md_heading [f]
            = match md_heading f with Some t => [t] | None => [] end) as ->
      by reflexivity.
    destruct (md_heading f) as [t |].
    + by rewrite last_snoc.
    + by rewrite app_nil_r.
  - destruct (visit_file_not_md (fold_left (visit_file lower) files info) f E)
      as [-> ->].
    by rewrite app_nil_r.
Qed.

(** What [extract_instruction_info] returns for a folder that can be
    listed. *)
Lemma extract_listed (fd : Folder) (m : Z) (files : list File) :
  folder_exists fd = true → folder_mtime fd = Ok m →
  folder_files fd = Ok files →
  let d := extract_instruction_info lower fd in
  id d = folder_name fd
  ∧ content d = from_option md_text [] (last (md_files files))
  ∧ title d
    = default (folder_name fd) (last (omap md_heading (md_files files))).
Proof.
  intros He Hm Hf. unfold extract_instruction_info.
  rewrite He, Hm, Hf. simpl. apply fold_visit_file.
Qed.

Lemma extract_id (fd : Folder) :
  id (extract_instruction_info lower fd) = folder_name fd.
Proof.
  unfold extract_instruction_info.
  destruct (folder_exists fd); simpl.
  - destruct (folder_mtime fd); [| done].
    destruct (folder_files fd); [| done]. apply fold_visit_file.
  - done.
Qed.

(** A dictionary with content comes from a folder that could be listed
    and from the last markdown file in it. *)
Lemma extract_content (fd : Folder) :
  content (extract_instruction_info lower fd) ≠ [] →
  ∃ files f, folder_files fd = Ok files ∧ last (md_files files) = Some f
             ∧ content (extract_instruction_info lower fd) = md_text f.
Proof.
  unfold extract_instruction_info.
  destruct (folder_exists fd); simpl; [| done].
  destruct (folder_mtime fd) as [m |]; [| done].
  destruct (folder_files fd) as [files |]; [| done].
  intros H. exists files.
  destruct (fold_visit_file files
              {| id := folder_name fd; title := folder_name fd; content := [];
                 images := []; modified := m; preview := None |})
    as (_ & Hc & _).
  cbn zeta in Hc. rewrite Hc in H |- *. simpl in *.
  destruct (last (md_files files)) as [f |]; [| done]. by exists f.
Qed.

Lemma insert_desc_perm (x : Doc) (l : list Doc) : insert_desc x l ≡ₚ x :: l.
Proof.
  induction l as [|y l IH]; [done |]. simpl.
  destruct (modified x <=? modified y)%Z; [| done].
  rewrite IH. apply Permutation_swap.
Qed.

Lemma insert_desc_sorted (x : Doc) (l : list Doc) :
  StronglySorted newer_first l → StronglySorted newer_first (insert_desc x l).
Proof.
  induction l as [|y l IH]; intros Hs; simpl.
  - repeat constructor.
  - apply StronglySorted_inv in Hs as [Hl Hy].
    destruct (Z.leb_spec (modified x) (modified y)) as [Hle | Hlt].
    + constructor; [auto |].
      rewrite insert_desc_perm. by constructor.
    + constructor; [by constructor |]. constructor.
      * unfold newer_first. lia.
      * eapply Forall_impl; [exact Hy |].
        unfold newer_first. intros z Hz. lia.
Qed.

Lemma sort_desc_from (l acc : list Doc) :
  StronglySorted newer_first acc →
  StronglySorted newer_first (fold_left (λ acc x, insert_desc x acc) l acc)
  ∧ fold_left (λ acc x, insert_desc x acc) l acc ≡ₚ acc ++ l.
Proof.
  revert acc. induction l as [|x l IH]; intros acc Hacc; simpl.
  - by rewrite app_nil_r.
  - destruct (IH (insert_desc x acc) (insert_desc_sorted x acc Hacc))
      as [Hs Hp].
    split; [done |]. rewrite Hp, insert_desc_perm.
    by rewrite <- Permutation_middle.
Qed.

Lemma sort_desc_sorted (l : list Doc) : StronglySorted newer_first (sort_desc l).
Proof. apply sort_desc_from. constructor. Qed.

Lemma sort_desc_perm (l : list Doc) : sort_desc l ≡ₚ l.
Proof. apply (sort_desc_from l []). constructor. Qed.

(** The loop of the scan appends, in enumeration order, the dictionaries
    with content of the entries that are directories. *)
Lemma scan_loop_filter (folders : list Folder) (acc : list Doc) :
  scan_loop lower folders acc
  = acc ++ filter (λ d, content d ≠ [])
             (extract_instruction_info lower
                <$> filter (λ fd, folder_isdir fd = true) folders).
Proof.
  revert acc. induction folders as [|fd folders IH]; intros acc; simpl.
  - by rewrite app_nil_r.
  - destruct (folder_isdir fd) eqn:E.
    + rewrite filter_cons_True by done. rewrite fmap_cons.
      destruct (content (extract_instruction_info lower fd)) eqn:Ec.
      * rewrite filter_cons_False by (by rewrite Ec; intros []).
        apply IH.
      * rewrite filter_cons_True by (by rewrite Ec).
        rewrite IH. by rewrite <- app_assoc.
    + rewrite filter_cons_False by (by rewrite E). apply IH.
Qed.

Lemma scan_elem_of (folders : list Folder) (d : Doc) :
  d ∈ scan_instructions lower {| data_exists := true; data_listing := Ok folders |}
  ↔ content d ≠ []
    ∧ ∃ fd, fd ∈ folders ∧ folder_isdir fd = true
            ∧ d = extract_instruction_info lower fd.
Proof.
  unfold scan_instructions. simpl.
  rewrite sort_desc_perm, scan_loop_filter. simpl.
  rewrite list_elem_of_filter, list_elem_of_fmap.
  split.
  - intros [Hc (fd & -> & Hfd)]. split; [done |]. exists fd.
    apply list_elem_of_filter in Hfd as [? ?]. done.
  - intros [Hc (fd & Hfd & Hdir & ->)]. split; [done |]. exists fd.
    split; [done |]. by apply list_elem_of_filter.
Qed.

End ScannerProperties.

(** The newer of two folders comes first, whatever the enumeration
    order. *)
Example scan_two_folders :
  id <$> scan_instructions lower_basic
           {| data_exists := true;
              data_listing := Ok [folder_unreadable_md; folder_two_md_A] |}
  = [lit "d"; lit "a"].
Proof. reflexivity. Qed.

(** C8. The list the scanner returns is in descending order of modification
    time: every document is at least as new as all that follow it. *)
Theorem scan_sorted_newest_first (lower : str -> str) (data : DataFolder) :
  StronglySorted newer_first (scan_instructions lower data).
Proof.
  unfold scan_instructions.
  destruct (data_exists data); simpl; [| constructor].
  destruct (data_listing data); [| constructor].
  apply sort_desc_sorted.
Qed.

Lemma NoDup_fmap_eq {A B} (f : A → B) (l : list A) (x y : A) :
  NoDup (f <$> l) → x ∈ l → y ∈ l → f x = f y → x = y.
Proof.
  induction l as [|a l IH]; intros Hnd Hx Hy Hf; [by inv Hx |].
  rewrite fmap_cons in Hnd. apply NoDup_cons in Hnd as [Ha Hnd].
  apply elem_of_cons in Hx as [-> | Hx];
    apply elem_of_cons in Hy as [-> | Hy]; auto.
  - exfalso. apply Ha. rewrite Hf. by apply list_elem_of_fmap_2.
  - exfalso. apply Ha. rewrite <- Hf. by apply list_elem_of_fmap_2.
Qed.

Lemma scan_keeps (lower : str -> str) (folders : list Folder) (fd : Folder) :
  fd ∈ folders → folder_isdir fd = true →
  content (extract_instruction_info lower fd) ≠ [] →
  extract_instruction_info lower fd
  ∈ scan_instructions lower {| data_exists := true; data_listing := Ok folders |}.
Proof. intros ? ? ?. apply scan_elem_of. split; [done |]. by exists fd. Qed.

Lemma read_error_nonempty (e : str) : read_error_prefix ++ e ≠ [].
Proof. done. Qed.

(** The scanner on the folder whose markdown file cannot be read and the
    folder that cannot be listed: one document, for the first, with the
    folder name as title and the message as content. *)
Example scan_failed_folders :
  scan_instructions lower_basic
    {| data_exists := true;
       data_listing := Ok [folder_unreadable_md; folder_unlistable] |}
  = [{| id := lit "a"; title := lit "a";
        content := read_error_prefix ++ lit "denied"; images := [];
        modified := 5%Z; preview := None |}].
Proof. reflexivity. Qed.

(** C1, as stated, fails: the folder whose markdown file cannot be read is
    in the list of the scanner. *)
Lemma scan_lists_unreadable_md : ¬ excludes_empty_and_unreadable lower_basic.
Proof.
  intros H.
  specialize (H [folder_unreadable_md; folder_unlistable] folder_unreadable_md).
  eapply H.
  - left.
  - eexists _, _. split; [reflexivity |]. split; [reflexivity |].
    right. by eexists.
  - rewrite scan_failed_folders. left.
  - reflexivity.
Qed.

(** C1, amended. Every document of the scanner has content, and it is what
    the last markdown file of its folder left: the text of the file, or the
    message of the failed read. A folder without markdown file, or whose
    last markdown file is empty, is excluded; a folder whose last markdown
    file cannot be read is listed, with the message as content. Folder names
    are distinct, as in a directory listing. *)
Theorem scan_excludes_empty_content (lower : str -> str) (folders : list Folder) :
  NoDup (folder_name <$> folders) →
  let docs := scan_instructions lower
                {| data_exists := true; data_listing := Ok folders |} in
  (∀ d, d ∈ docs →
     content d ≠ []
     ∧ ∃ fd files f,
         fd ∈ folders ∧ folder_isdir fd = true
         ∧ d = extract_instruction_info lower fd
         ∧ folder_files fd = Ok files ∧ last (md_files files) = Some f
         ∧ (file_read f = Ok (content d)
            ∨ ∃ e, file_read f = Raise e ∧ content d = read_error_prefix ++ e))
  ∧ (∀ fd m files,
       fd ∈ folders → folder_exists fd = true → folder_mtime fd = Ok m →
       folder_files fd = Ok files →
       (last (md_files files) = None
        ∨ ∃ f, last (md_files files) = Some f ∧ file_read f = Ok []) →
       excluded docs fd)
  ∧ (∀ fd m files f e,
       fd ∈ folders → folder_isdir fd = true → folder_exists fd = true →
       folder_mtime fd = Ok m → folder_files fd = Ok files →
       last (md_files files) = Some f → file_read f = Raise e →
       extract_instruction_info lower fd ∈ docs
       ∧ content (extract_instruction_info lower fd) = read_error_prefix ++ e).
Proof.
  intros Hnd docs. subst docs. split_and!.
  - intros d [Hc (fd & Hfd & Hdir & ->)]%scan_elem_of. split; [done |].
    destruct (extract_content lower fd Hc) as (files & f & Hfiles & Hlast & Hd).
    exists fd, files, f. split_and!; try done.
    rewrite Hd. unfold md_text. destruct (file_read f) as [text | e]; eauto.
  - intros fd m files Hfd He Hm Hfiles Hempty d
      [Hc (fd' & Hfd' & Hdir & ->)]%scan_elem_of Hid.
    rewrite extract_id in Hid.
    assert (fd' = fd) as -> by (by eapply NoDup_fmap_eq).
    destruct (extract_listed lower fd m files He Hm Hfiles) as (_ & Hcontent & _).
    apply Hc. rewrite Hcontent.
    destruct Hempty as [-> | (f & -> & Hf)]; [done |].
    simpl. unfold md_text. by rewrite Hf.
  - intros fd m files f e Hfd Hdir He Hm Hfiles Hlast Hf.
    destruct (extract_listed lower fd m files He Hm Hfiles) as (_ & Hcontent & _).
    rewrite Hlast in Hcontent. simpl in Hcontent. unfold md_text in Hcontent.
    rewrite Hf in Hcontent. split; [| done].
    apply scan_keeps; [done | done |]. rewrite Hcontent. apply read_error_nonempty.
Qed.

Lemma scan_excludes_empty_content_witness :
  NoDup (folder_name <$> [folder_unreadable_md; folder_empty_md])
  ∧ excluded
      (scan_instructions lower_basic
         {| data_exists := true;
            data_listing := Ok [folder_unreadable_md; folder_empty_md] |})
      folder_empty_md
  ∧ extract_instruction_info lower_basic folder_unreadable_md
    ∈ scan_instructions lower_basic
        {| data_exists := true;
           data_listing := Ok [folder_unreadable_md; folder_empty_md] |}.
Proof.
  assert (NoDup (folder_name <$> [folder_unreadable_md; folder_empty_md]))
    as Hnd by (by apply (bool_decide_unpack _)).
  split; [exact Hnd |].
  destruct (scan_excludes_empty_content lower_basic
              [folder_unreadable_md; folder_empty_md] Hnd) as (_ & Hex & Hkeep).
  split.
  - eapply (Hex folder_empty_md); try reflexivity.
    + right; left.
    + right. eexists. split; reflexivity.
  - eapply (Hkeep folder_unreadable_md); try reflexivity. left.
Defined.

(** C2, as stated, fails: the folder whose markdown file cannot be read gets
    a document, but its title is the folder name, not an error message. *)
Lemma scan_error_not_in_title : ¬ reports_failed_folders lower_basic.
Proof.
  intros H.
  destruct (H [folder_unreadable_md; folder_unlistable] folder_unreadable_md)
    as (d & Hd & _ & e & Ht).
  - left.
  - reflexivity.
  - right; right. eexists _, _, _. split; [reflexivity |].
    split; [left | reflexivity].
  - rewrite scan_failed_folders in Hd.
    apply list_elem_of_singleton in Hd as ->.
    by destruct Ht as [Ht | Ht].
Qed.

(** C2, amended. When the last markdown file of a folder cannot be read the
    scan goes on and its list holds a document for the folder: the content
    is the message of the failed read, the title is what the files read
    before left (a heading, or else the folder name). Whatever happens at
    one folder, every other folder that yields content is listed. *)
Theorem scan_reports_unreadable_md (lower : str -> str) (folders : list Folder)
    (fd : Folder) (m : Z) (files : list File) (f : File) (e : str) :
  fd ∈ folders → folder_isdir fd = true → folder_exists fd = true →
  folder_mtime fd = Ok m → folder_files fd = Ok files →
  last (md_files files) = Some f → file_read f = Raise e →
  let docs := scan_instructions lower
                {| data_exists := true; data_listing := Ok folders |} in
  let d := extract_instruction_info lower fd in
  d ∈ docs ∧ id d = folder_name fd
  ∧ content d = read_error_prefix ++ e
  ∧ title d = default (folder_name fd) (last (omap md_heading (md_files files)))
  ∧ (∀ fd', fd' ∈ folders → folder_isdir fd' = true →
            content (extract_instruction_info lower fd') ≠ [] →
            extract_instruction_info lower fd' ∈ docs).
Proof.
  intros Hfd Hdir He Hm Hfiles Hlast Hf docs d. subst docs d.
  destruct (extract_listed lower fd m files He Hm Hfiles) as (Hid & Hc & Ht).
  rewrite Hlast in Hc. simpl in Hc. unfold md_text in Hc. rewrite Hf in Hc.
  split_and!; try done.
  - apply scan_keeps; [done | done |]. rewrite Hc. apply read_error_nonempty.
  - intros fd' ? ? ?. by apply scan_keeps.
Qed.

Lemma scan_reports_unreadable_md_witness :
  folder_unreadable_md ∈ [folder_unlistable; folder_unreadable_md]
  ∧ folder_isdir folder_unreadable_md = true
  ∧ folder_exists folder_unreadable_md = true
  ∧ folder_mtime folder_unreadable_md = Ok 5%Z
  ∧ folder_files folder_unreadable_md
    = Ok [{| file_name := lit "x.md"; file_read := Raise (lit "denied") |}]
  ∧ last (md_files [{| file_name := lit "x.md";
                       file_read := Raise (lit "denied") |}])
    = Some {| file_name := lit "x.md"; file_read := Raise (lit "denied") |}
  ∧ file_read {| file_name := lit "x.md"; file_read := Raise (lit "denied") |}
    = Raise (lit "denied")
  ∧ extract_instruction_info lower_basic folder_unreadable_md
    ∈ scan_instructions lower_basic
        {| data_exists := true;
           data_listing := Ok [folder_unlistable; folder_unreadable_md] |}
  ∧ content (extract_instruction_info lower_basic folder_unreadable_md)
    = read_error_prefix ++ lit "denied".
Proof.
  assert (folder_unreadable_md ∈ [folder_unlistable; folder_unreadable_md])
    as Hin by (right; left).
  pose proof (scan_reports_unreadable_md lower_basic
                [folder_unlistable; folder_unreadable_md] folder_unreadable_md
                5 _ _ (lit "denied") Hin eq_refl eq_refl eq_refl eq_refl
                eq_refl eq_refl) as (Hd & _ & Hc & _).
  split_and!;
    [exact Hin | reflexivity | reflexivity | reflexivity | reflexivity
     | reflexivity | reflexivity | exact Hd | exact Hc].
Defined.

(** C4, as stated, fails: the two folders agree on the last markdown file,
    which has no heading, and their titles are those of the first files. *)
Lemma title_from_earlier_md : ¬ last_md_determines lower_basic.
Proof.
  intros H.
  destruct (H folder_two_md_A folder_two_md_B _ _
              eq_refl eq_refl eq_refl eq_refl eq_refl eq_refl) as [_ Ht].
  - vm_compute. lia.
  - vm_compute. lia.
  - reflexivity.
  - vm_compute in Ht. discriminate Ht.
Qed.

(** C4, amended. In a folder that can be listed the content is that of the
    last markdown file in enumeration order. The title is the heading of
    that file when it has one; otherwise it is what the markdown files
    before it left: the heading of the last of them that has one, or else
    the folder name. *)
Theorem extract_last_md (lower : str -> str) (fd : Folder) (m : Z)
    (files mds : list File) (f : File) :
  folder_exists fd = true → folder_mtime fd = Ok m →
  folder_files fd = Ok files →
  md_files files = mds ++ [f] →
  content (extract_instruction_info lower fd) = md_text f
  ∧ title (extract_instruction_info lower fd)
    = match md_heading f with
      | Some t => t
      | None => default (folder_name fd) (last (omap md_heading mds))
      end.
Proof.
  intros He Hm Hfiles Hmds.
  destruct (extract_listed lower fd m files He Hm Hfiles) as (_ & -> & ->).
  rewrite Hmds, last_snoc, omap_app. split; [done |].
  assert (omap md_heading [f]
          = match md_heading f with Some t => [t] | None => [] end) as ->
    by reflexivity.
  destruct (md_heading f) as [t |].
  - by rewrite last_snoc.
  - by rewrite app_nil_r.
Qed.

Lemma extract_last_md_witness :
  folder_exists folder_two_md_A = true
  ∧ folder_mtime folder_two_md_A = Ok 8%Z
  ∧ folder_files folder_two_md_A
    = Ok [{| file_name := lit "a.md"; file_read := Ok (lit "# A") |};
          file_no_heading]
  ∧ md_files [{| file_name := lit "a.md"; file_read := Ok (lit "# A") |};
              file_no_heading]
    = [{| file_name := lit "a.md"; file_read := Ok (lit "# A") |}]
      ++ [file_no_heading]
  ∧ content (extract_instruction_info lower_basic folder_two_md_A)
    = md_text file_no_heading
  ∧ title (extract_instruction_info lower_basic folder_two_md_A)
    = match md_heading file_no_heading with
      | Some t => t
      | None =>
          default (folder_name folder_two_md_A)
            (last (omap md_heading
                     [{| file_name := lit "a.md";
                         file_read := Ok (lit "# A") |}]))
      end.
Proof.
  pose proof (extract_last_md lower_basic folder_two_md_A 8 _
                [{| file_name := lit "a.md"; file_read := Ok (lit "# A") |}]
                file_no_heading eq_refl eq_refl eq_refl eq_refl) as [Hc Ht].
  split_and!;
    [reflexivity | reflexivity | reflexivity | reflexivity | exact Hc | exact Ht].
Defined.

(** ** The title pattern *)

Lemma take_line_app (foo rest : str) :
  newline ∉ foo → (rest = [] ∨ head rest = Some newline) →
  take_line (foo ++ rest) = foo.
Proof.
  intros Hfoo Hrest. induction foo as [|c foo IH]; simpl.
  - destruct Hrest as [-> | Hrest]; [done |].
    destruct rest as [|r rest]; [done |]. injection Hrest as ->. done.
  - apply not_elem_of_cons in Hfoo as [Hc Hfoo].
    unfold is_newline. destruct (N.eqb_spec c newline) as [-> | _]; [done |].
    by rewrite IH.
Qed.

Lemma match_spaces_not_space (c : char) (s : str) :
  is_space c = false → match_spaces (c :: s) = None.
Proof. intros H. simpl. by rewrite H. Qed.

Lemma title_search_skip (pre s : str) :
  hash ∉ pre → title_search (pre ++ s) = title_search s.
Proof.
  induction pre as [|c pre IH]; intros H; [done |].
  apply not_elem_of_cons in H as [Hc Hpre]. simpl.
  destruct (N.eqb_spec c hash) as [-> | _]; [done | auto].
Qed.

Lemma match_capture_Some (c : char) (rest : str) :
  c ≠ newline → is_Some (match_capture (c :: rest)).
Proof.
  intros Hc. unfold match_capture. simpl. unfold is_newline.
  destruct (N.eqb_spec c newline); [done | eauto].
Qed.

Lemma match_capture_inv (s t : str) :
  match_capture s = Some t → ∃ c rest, s = c :: rest ∧ c ≠ newline.
Proof.
  unfold match_capture. destruct s as [|c rest]; [done |]. simpl.
  unfold is_newline. destruct (N.eqb_spec c newline); [done |]. eauto.
Qed.

(** [\s+(.+)$] matches at [s] exactly when [s] begins with white space
    followed by a character other than the line feed. *)
Lemma match_spaces_is_Some (s : str) :
  is_Some (match_spaces s)
  ↔ ∃ ws c rest, s = ws ++ c :: rest ∧ ws ≠ []
                 ∧ forallb is_space ws = true ∧ c ≠ newline.
Proof.
  split.
  - induction s as [|c0 s IH]; simpl; [by intros [? ?] |].
    destruct (is_space c0) eqn:E0; [| by intros [? ?]].
    destruct (match_spaces s) as [t |] eqn:Es.
    + intros _. destruct IH as (ws & c & rest & -> & _ & Hws & Hc); [eauto |].
      exists (c0 :: ws), c, rest. simpl. by rewrite E0, Hws.
    + intros [t Ht]. apply match_capture_inv in Ht as (c & rest & -> & Hc).
      exists [c0], c, rest. simpl. by rewrite E0.
  - intros (ws & c & rest & -> & Hne & Hws & Hc).
    induction ws as [|w ws IH]; [done |]. simpl in *.
    apply andb_true_iff in Hws as [Hw Hws]. rewrite Hw.
    destruct ws as [|w' ws].
    + change ([] ++ c :: rest) with (c :: rest).
      destruct (match_spaces (c :: rest)); [eauto |].
      by apply match_capture_Some.
    + destruct IH as [t ->]; [done | done | eauto].
Qed.

(** The pattern is found in a text exactly when some [#] is followed by
    white space and then a character other than the line feed. *)
Lemma title_search_is_Some (text : str) :
  is_Some (title_search text) ↔ has_title_match text.
Proof.
  unfold has_title_match. split.
  - induction text as [|c s IH]; simpl; [by intros [? ?] |].
    destruct (N.eqb_spec c hash) as [-> | Hc].
    + destruct (match_spaces s) as [t |] eqn:Es.
      * intros _.
        destruct (proj1 (match_spaces_is_Some s))
          as (ws & c & rest & -> & ? & ? & ?); [by rewrite Es |].
        by exists [], ws, c, rest.
      * intros H. destruct (IH H) as (pre & ws & c & rest & -> & ? & ? & ?).
        by exists (hash :: pre), ws, c, rest.
    + intros H. destruct (IH H) as (pre & ws & c' & rest & -> & ? & ? & ?).
      by exists (c :: pre), ws, c', rest.
  - intros (pre & ws & c & rest & -> & Hne & Hws & Hc).
    assert (is_Some (title_search (hash :: ws ++ c :: rest))) as Hhere.
    { simpl.
      destruct (proj2 (match_spaces_is_Some (ws ++ c :: rest))) as [t ->];
        [by exists ws, c, rest | eauto]. }
    induction pre as [|p pre IH]; [done |]. simpl.
    destruct (p =? hash); [| done].
    destruct (match_spaces _); [eauto | done].
Qed.

Lemma title_search_heading (pre foo rest : str) :
  hash ∉ pre → foo ≠ [] → newline ∉ foo →
  (∀ c, head foo = Some c → is_space c = false) →
  (rest = [] ∨ head rest = Some newline) →
  title_search (pre ++ lit "# " ++ foo ++ rest) = Some foo.
Proof.
  intros Hpre Hne Hnl Hsp Hrest. rewrite title_search_skip by done.
  destruct foo as [|c foo]; [done |].
  change (lit "# " ++ (c :: foo) ++ rest)
    with (hash :: 32 :: (c :: foo) ++ rest).
  cbn [title_search match_spaces]. rewrite N.eqb_refl.
  change (is_space 32) with true. cbv iota.
  change ((c :: foo) ++ rest) with (c :: (foo ++ rest)).
  rewrite match_spaces_not_space by (by apply Hsp).
  unfold match_capture.
  change (c :: (foo ++ rest)) with ((c :: foo) ++ rest).
  by rewrite take_line_app.
Qed.

Lemma take_line_spec (s : str) :
  (newline ∉ take_line s)
  ∧ ∃ post, s = take_line s ++ post ∧ (post = [] ∨ head post = Some newline).
Proof.
  induction s as [|c s (IH1 & post & IH2 & IH3)]; simpl.
  - split; [apply not_elem_of_nil | exists []; auto].
  - unfold is_newline. destruct (N.eqb_spec c newline) as [-> | Hc].
    + split; [apply not_elem_of_nil |]. exists (newline :: s). auto.
    + split; [by apply not_elem_of_cons |]. exists post. simpl.
      by rewrite <- IH2.
Qed.

Lemma match_capture_spec (s t : str) :
  match_capture s = Some t →
  t ≠ [] ∧ (newline ∉ t)
  ∧ ∃ post, s = t ++ post ∧ (post = [] ∨ head post = Some newline).
Proof.
  unfold match_capture. destruct (take_line_spec s) as (H1 & post & H2 & H3).
  destruct (take_line s) as [|c t'] eqn:E; [done |].
  intros [= <-]. split; [done |]. split; [done |]. by exists post.
Qed.

Lemma match_spaces_spec (s t : str) :
  match_spaces s = Some t →
  t ≠ [] ∧ (newline ∉ t)
  ∧ ∃ ws post, s = ws ++ t ++ post ∧ ws ≠ [] ∧ forallb is_space ws = true
               ∧ (post = [] ∨ head post = Some newline).
Proof.
  revert t. induction s as [|c s IH]; intros t; simpl; [done |].
  destruct (is_space c) eqn:Ec; [| done].
  destruct (match_spaces s) as [t' |] eqn:Es.
  - intros [= <-].
    destruct (IH t' eq_refl) as (? & ? & ws & post & -> & ? & Hws & ?).
    split; [done |]. split; [done |]. exists (c :: ws), post.
    simpl. by rewrite Ec, Hws.
  - intros (? & ? & post & -> & ?)%match_capture_spec.
    split; [done |]. split; [done |]. exists [c], post.
    simpl. by rewrite Ec.
Qed.

(** The white space [match_spaces] takes is the longest after which the
    rest of the pattern still matches. *)
Lemma match_spaces_greedy (s t : str) :
  match_spaces s = Some t →
  ∃ ws post,
    s = ws ++ t ++ post ∧ ws ≠ [] ∧ forallb is_space ws = true
    ∧ t ≠ [] ∧ (newline ∉ t) ∧ (post = [] ∨ head post = Some newline)
    ∧ ∀ ws1 c rest1,
        s = ws1 ++ c :: rest1 → ws1 ≠ [] → forallb is_space ws1 = true →
        c ≠ newline → (length ws1 ≤ length ws)%nat.
Proof.
  revert t. induction s as [|c0 s IH]; intros t; simpl; [done |].
  destruct (is_space c0) eqn:E0; [| done].
  destruct (match_spaces s) as [t' |] eqn:Es.
  - intros [= <-].
    destruct (IH t' eq_refl) as (ws & post & -> & ? & Hws & ? & ? & ? & Hmax).
    exists (c0 :: ws), post. split_and!; try done.
    { simpl. by rewrite E0, Hws. }
    intros [|w1 ws1] c rest1 Heq Hne Hsp Hc; [done |].
    simpl in Heq. injection Heq as -> Heq. simpl in Hsp.
    apply andb_true_iff in Hsp as [_ Hsp].
    destruct ws1 as [|w2 ws1]; [simpl; lia |].
    specialize (Hmax (w2 :: ws1) c rest1 Heq). simpl in *.
    assert (S (length ws1) ≤ length ws)%nat by (by apply Hmax). lia.
  - intros Hcap.
    destruct (match_capture_spec s t Hcap) as (? & ? & post & -> & ?).
    exists [c0], post. split_and!; try done.
    { simpl. by rewrite E0. }
    intros [|w1 ws1] c rest1 Heq Hne Hsp Hc; [done |].
    simpl in Heq. injection Heq as -> Heq. simpl in Hsp.
    apply andb_true_iff in Hsp as [_ Hsp].
    destruct ws1 as [|w2 ws1]; [simpl; lia |].
    exfalso.
    assert (is_Some (match_spaces (t ++ post))) as [? Hsome]; [| congruence].
    apply match_spaces_is_Some. by exists (w2 :: ws1), c, rest1.
Qed.

(** [title_search] gives the capture of the leftmost match. *)
Lemma title_search_leftmost (text t : str) :
  title_search text = Some t → leftmost_title_match text t.
Proof.
  revert t. induction text as [|c s IH]; intros t; simpl; [done |].
  destruct (N.eqb_spec c hash) as [-> | Hc].
  - destruct (match_spaces s) as [t' |] eqn:Es.
    + intros [= <-].
      destruct (match_spaces_greedy s t' Es)
        as (ws & post & -> & ? & ? & ? & ? & ? & Hmax).
      exists [], ws, post. split_and!; try done.
      intros pre1 ws1 c rest1 Heq Hne Hsp Hc. split; [simpl; lia |].
      intros Hlen. destruct pre1; [| done].
      simpl in Heq. injection Heq as Heq. by eapply Hmax.
    + intros Ht.
      destruct (IH t Ht) as (pre & ws & post & -> & ? & ? & ? & ? & ? & Hleft).
      exists (hash :: pre), ws, post. split_and!; try done.
      intros [|p1 pre1] ws1 c rest1 Heq Hne Hsp Hc.
      * exfalso. simpl in Heq. injection Heq as Heq.
        assert (is_Some (match_spaces (pre ++ hash :: ws ++ t ++ post)))
          as [? Hsome]; [| congruence].
        apply match_spaces_is_Some. by exists ws1, c, rest1.
      * simpl in Heq. injection Heq as <- Heq.
        destruct (Hleft pre1 ws1 c rest1 Heq Hne Hsp Hc) as [Hl1 Hl2].
        simpl. split; [lia |]. intros Hlen. apply Hl2. lia.
  - intros Ht.
    destruct (IH t Ht) as (pre & ws & post & -> & ? & ? & ? & ? & ? & Hleft).
    exists (c :: pre), ws, post. split_and!; try done.
    intros [|p1 pre1] ws1 c1 rest1 Heq Hne Hsp Hc1.
    + simpl in Heq. by injection Heq as -> _.
    + simpl in Heq. injection Heq as -> Heq.
      destruct (Hleft pre1 ws1 c1 rest1 Heq Hne Hsp Hc1) as [Hl1 Hl2].
      simpl. split; [lia |]. intros Hlen. apply Hl2. lia.
Qed.

(** A text has at most one leftmost match. *)
Lemma leftmost_title_match_unique (text t t' : str) :
  leftmost_title_match text t → leftmost_title_match text t' → t = t'.
Proof.
  intros (pre & ws & post & Heq & Hne & Hsp & Ht & Hnl & Hpost & Hleft)
         (pre' & ws' & post' & Heq' & Hne' & Hsp' & Ht' & Hnl' & Hpost' & Hleft').
  destruct t as [|c t0] eqn:Et; [done |].
  destruct t' as [|c' t0'] eqn:Et'; [done |].
  assert (c ≠ newline) as Hc by (intros ->; apply Hnl; left).
  assert (c' ≠ newline) as Hc' by (intros ->; apply Hnl'; left).
  destruct (Hleft pre' ws' c' (t0' ++ post') Heq' Hne' Hsp' Hc') as [H1 H2].
  destruct (Hleft' pre ws c (t0 ++ post) Heq Hne Hsp Hc) as [H1' H2'].
  assert (length pre = length pre') as Hlen by lia.
  rewrite Heq in Heq'.
  apply app_inj_1 in Heq' as [<- Heq']; [| done].
  injection Heq' as Heq'.
  assert (length ws = length ws') as Hlenw.
  { specialize (H2 eq_refl). specialize (H2' eq_refl). lia. }
  apply app_inj_1 in Heq' as [<- Heq']; [| done].
  rewrite <- (take_line_app (c :: t0) post Hnl Hpost).
  rewrite <- (take_line_app (c' :: t0') post' Hnl' Hpost').
  f_equal. exact Heq'.
Qed.

Lemma leftmost_title_match_search (text t : str) :
  leftmost_title_match text t → title_search text = Some t.
Proof.
  intros Hm.
  assert (is_Some (title_search text)) as [t' Ht'].
  { apply title_search_is_Some.
    destruct Hm as (pre & ws & post & -> & ? & ? & Ht & Hnl & _).
    destruct t as [|c t0]; [done |].
    exists pre, ws, c, (t0 ++ post). split_and!; try done.
    intros ->. apply Hnl. left. }
  rewrite Ht'. f_equal.
  eapply leftmost_title_match_unique; [| exact Hm].
  by apply title_search_leftmost.
Qed.

(** C3, as stated, fails: the file "## Sub" has no line beginning with "# ",
    and the title is "Sub", not the folder name. *)
Lemma title_from_subheading : ¬ title_is_first_heading_line lower_basic.
Proof.
  intros H.
  specialize (H folder_subheading 1%Z _ (lit "## Sub")
                eq_refl eq_refl eq_refl eq_refl eq_refl).
  vm_compute in H. discriminate H.
Qed.

(** C3, amended. For a folder with one readable markdown file the title is
    the capture of the leftmost match of the pattern anywhere in the text,
    at the beginning of a line or not: the match at the first [#] that is
    followed by white space and then a character other than the line feed,
    with the white space as long as possible and the capture running to the
    end of the line; such a match exists as soon as some [#] is so followed.
    When the first [#] of the text begins "# Foo" up to the end of its line,
    [Foo] not starting with white space, the title is exactly [Foo]. If the
    pattern matches nowhere, that is if no [#] of the text is followed by
    white space and then a character other than the line feed, the title is
    the folder name. *)
Theorem extract_title_pattern (lower : str -> str) (fd : Folder) (m : Z)
    (files : list File) (f : File) (text : str) :
  folder_exists fd = true → folder_mtime fd = Ok m →
  folder_files fd = Ok files → md_files files = [f] →
  file_read f = Ok text →
  (∀ t, leftmost_title_match text t →
        title (extract_instruction_info lower fd) = t)
  ∧ (has_title_match text → ∃ t, leftmost_title_match text t)
  ∧ (∀ pre foo rest,
       text = pre ++ lit "# " ++ foo ++ rest →
       hash ∉ pre → foo ≠ [] → newline ∉ foo →
       (∀ c, head foo = Some c → is_space c = false) →
       (rest = [] ∨ head rest = Some newline) →
       title (extract_instruction_info lower fd) = foo)
  ∧ (¬ has_title_match text →
     title (extract_instruction_info lower fd) = folder_name fd).
Proof.
  intros He Hm Hfiles Hmd Hread.
  destruct (extract_listed lower fd m files He Hm Hfiles) as (_ & _ & Ht).
  rewrite Hmd in Ht. simpl in Ht. unfold md_heading in Ht.
  rewrite Hread in Ht.
  assert (title (extract_instruction_info lower fd)
          = default (folder_name fd) (title_search text)) as Htitle.
  { rewrite Ht. by destruct (title_search text). }
  split_and!.
  - intros t Hmatch. rewrite Htitle.
    by rewrite (leftmost_title_match_search text t Hmatch).
  - intros [t Hsome]%title_search_is_Some. exists t.
    by apply title_search_leftmost.
  - intros pre foo rest -> ? ? ? ? ?. rewrite Htitle.
    by rewrite title_search_heading.
  - intros Hno. rewrite Htitle.
    destruct (title_search text) as [t |] eqn:E; [| done].
    exfalso. apply Hno, title_search_is_Some. by rewrite E.
Qed.

(** In "## Sub" the leftmost match begins at the second [#]. *)
Lemma leftmost_title_match_subheading :
  leftmost_title_match (lit "## Sub") (lit "Sub").
Proof.
  exists [hash], [32], [].
  split_and!; [reflexivity | done | reflexivity | done
               | by apply (bool_decide_unpack _) | by left |].
  change (lit "## Sub") with [hash; hash; 32; 83; 117; 98].
  intros pre1 ws1 c rest1 Heq Hne Hsp Hc.
  destruct pre1 as [|p1 [|p2 pre1]].
  - exfalso. destruct ws1 as [|w ws1]; [done |].
    simpl in Heq. injection Heq as <- _. discriminate Hsp.
  - simpl in Heq. injection Heq as _ Heq. split; [simpl; lia |]. intros _.
    destruct ws1 as [|w [|w2 ws1]]; [done | simpl; lia |].
    exfalso. simpl in Heq. injection Heq as <- <- _. discriminate Hsp.
  - simpl. split; [lia |]. intros Hlen. lia.
Qed.

Lemma extract_title_pattern_witness :
  folder_exists folder_subheading = true
  ∧ folder_mtime folder_subheading = Ok 1%Z
  ∧ folder_files folder_subheading
    = Ok [{| file_name := lit "x.md"; file_read := Ok (lit "## Sub") |}]
  ∧ md_files [{| file_name := lit "x.md"; file_read := Ok (lit "## Sub") |}]
    = [{| file_name := lit "x.md"; file_read := Ok (lit "## Sub") |}]
  ∧ title (extract_instruction_info lower_basic folder_subheading)
    = lit "Sub".
Proof.
  pose proof (extract_title_pattern lower_basic folder_subheading 1 _ _
                (lit "## Sub") eq_refl eq_refl eq_refl eq_refl eq_refl)
    as (Hleft & _).
  split_and!; [reflexivity | reflexivity | reflexivity | reflexivity |].
  exact (Hleft (lit "Sub") leftmost_title_match_subheading).
Defined.

(** ** The image pass *)

Lemma span_until_app (stop : char) (s run rest : str) :
  span_until stop s = (run, rest) → s = run ++ rest.
Proof.
  revert run rest. induction s as [|c s IH]; intros run rest; simpl.
  - by intros [= <- <-].
  - destruct (c =? stop); [by intros [= <- <-] |].
    destruct (span_until stop s) as [run' rest'].
    intros [= <- <-]. simpl. f_equal. by apply IH.
Qed.

Lemma span_until_stop (stop : char) (run rest : str) :
  stop ∉ run → span_until stop (run ++ stop :: rest) = (run, stop :: rest).
Proof.
  induction run as [|c run IH]; intros H; simpl.
  - by rewrite N.eqb_refl.
  - apply not_elem_of_cons in H as [Hc Hrun].
    destruct (N.eqb_spec c stop) as [-> | _]; [done |].
    by rewrite IH.
Qed.

Lemma image_ref_cons (alt target rest : str) :
  image_ref alt target ++ rest
  = bang :: lbracket :: alt ++ rbracket :: lparen :: target ++ rparen :: rest.
Proof.
  unfold image_ref.
  change (lit "![") with [bang; lbracket].
  change (lit "](") with [rbracket; lparen].
  change (lit ")") with [rparen].
  simpl. do 2 f_equal. rewrite <- !app_assoc. simpl. do 3 f_equal.
  by rewrite <- app_assoc.
Qed.

Lemma image_ref_head (alt target : str) :
  ∃ body, image_ref alt target = bang :: body.
Proof. by eexists. Qed.

(** A match of the pattern is a reference, and what is behind it. *)
Lemma match_image_inv (s alt url rest : str) :
  match_image s = Some (alt, url, rest) →
  s = image_ref alt url ++ rest ∧ url ≠ [].
Proof.
  intros Hm. unfold match_image in Hm.
  destruct s as [|c1 [|c2 s1]]; try done.
  destruct (N.eqb_spec c1 bang) as [-> |]; [| done].
  destruct (N.eqb_spec c2 lbracket) as [-> |]; [| done]. cbn [andb] in Hm.
  destruct (span_until rbracket s1) as [alt' r1] eqn:E1.
  destruct r1 as [|c3 [|c4 s2]]; try done.
  destruct (N.eqb_spec c3 rbracket) as [-> |]; [| done].
  destruct (N.eqb_spec c4 lparen) as [-> |]; [| done]. cbn [andb] in Hm.
  destruct (span_until rparen s2) as [url' r2] eqn:E2.
  destruct url' as [|u url']; [done |].
  destruct r2 as [|c5 rest']; [done |].
  destruct (N.eqb_spec c5 rparen) as [-> |]; [| done].
  injection Hm as <- <- <-. split; [| done].
  rewrite image_ref_cons.
  apply span_until_app in E1 as ->. by apply span_until_app in E2 as ->.
Qed.

(** A reference is matched as a whole. *)
Lemma match_image_ref (alt target rest : str) :
  rbracket ∉ alt → target ≠ [] → rparen ∉ target →
  match_image (image_ref alt target ++ rest) = Some (alt, target, rest).
Proof.
  intros Halt Hne Htarget. rewrite image_ref_cons. unfold match_image.
  rewrite !N.eqb_refl. simpl.
  rewrite (span_until_stop rbracket alt _ Halt).
  rewrite !N.eqb_refl. simpl.
  rewrite (span_until_stop rparen target _ Htarget).
  destruct target; [done |]. by rewrite N.eqb_refl.
Qed.

Lemma match_image_not_bang (c : char) (s : str) :
  c ≠ bang → match_image (c :: s) = None.
Proof.
  intros H. unfold match_image. destruct s; [done |].
  by destruct (N.eqb_spec c bang).
Qed.

(** The characters covered by the last match are passed over. *)
Lemma image_sub_skip (d a s : str) :
  image_sub d (length a) (a ++ s) = image_sub d 0 s.
Proof. induction a as [|c a IH]; [by destruct s | done]. Qed.

(** The two equations of [re.sub]: at a match the replacement is written
    and the scan goes on behind the match; elsewhere one character is
    copied. *)
Lemma rewrite_images_match (d s alt url rest : str) :
  match_image s = Some (alt, url, rest) →
  rewrite_images d s
  = replace_image d (image_ref alt url) alt url ++ rewrite_images d rest.
Proof.
  intros Hm. destruct (match_image_inv s alt url rest Hm) as [Hs _].
  destruct (image_ref_head alt url) as [body Hbody].
  rewrite Hbody in Hs |- *. subst s. unfold rewrite_images.
  change ((bang :: body) ++ rest) with (bang :: (body ++ rest)) in *.
  cbn [image_sub]. rewrite Hm.
  assert (length (bang :: body ++ rest) - length rest = S (length body))%nat
    as -> by (cbn [length]; rewrite length_app; lia).
  cbn [take]. rewrite take_app_length.
  replace (S (length body) - 1)%nat with (length body) by lia.
  by rewrite image_sub_skip.
Qed.

Lemma rewrite_images_no_match (d : str) (c : char) (s : str) :
  match_image (c :: s) = None →
  rewrite_images d (c :: s) = c :: rewrite_images d s.
Proof. intros Hm. unfold rewrite_images. cbn [image_sub]. by rewrite Hm. Qed.

Lemma rewrite_images_no_bang (d pre s : str) :
  bang ∉ pre → rewrite_images d (pre ++ s) = pre ++ rewrite_images d s.
Proof.
  induction pre as [|c pre IH]; intros H; [done |].
  apply not_elem_of_cons in H as [Hc Hpre]. simpl.
  rewrite rewrite_images_no_match by (by apply match_image_not_bang).
  by rewrite IH.
Qed.

Lemma rewrite_images_unmatched (d s : str) :
  (∀ i, match_image (drop i s) = None) → rewrite_images d s = s.
Proof.
  induction s as [|c s IH]; intros H; [done |].
  rewrite rewrite_images_no_match by apply (H 0%nat).
  f_equal. apply IH. intros i. apply (H (S i)).
Qed.

Lemma replace_image_cases (d alt target : str) :
  replace_image d (image_ref alt target) alt target
  = if startswith target (lit "http") then image_ref alt target
    else image_ref alt (lit "/image/" ++ d ++ lit "/" ++ target).
Proof.
  unfold replace_image. destruct (startswith target (lit "http")); [done |].
  unfold image_ref. rewrite <- !app_assoc. reflexivity.
Qed.

(** The two examples of the specification. *)
Example rewrite_local_reference :
  rewrite_images (lit "abc") (lit "![x](pic.png)")
  = lit "![x](/image/abc/pic.png)".
Proof. reflexivity. Qed.

Example rewrite_external_reference :
  rewrite_images (lit "abc") (lit "![x](http://y/z.png)")
  = lit "![x](http://y/z.png)".
Proof. reflexivity. Qed.

(** The statement "left unchanged if the target begins with a URL scheme,
    rewritten otherwise" does not hold of the image pass. *)
Lemma rewrite_images_ftp : ¬ rewrites_by_scheme.
Proof.
  intros H.
  assert (rbracket ∉ lit "x") as H1 by (by apply (bool_decide_unpack _)).
  assert (lit "ftp://y/z.png" ≠ []) as H2 by done.
  assert (rparen ∉ lit "ftp://y/z.png") as H3
    by (by apply (bool_decide_unpack _)).
  specialize (H (lit "abc") (lit "x") (lit "ftp://y/z.png") H1 H2 H3).
  vm_compute in H. discriminate H.
Qed.

(** C5. The image pass at a reference whose target is a URL of the scheme
    [ftp], in the document [abc]: the target begins with a URL scheme and
    not with [http], and the reference is rewritten to the image route,
    where the claim, and the comment of [replace_image] ("if it is a URL,
    leave it as it is"), leave it unchanged. *)
Theorem rewrite_images_url_not_http :
  begins_with_scheme (lit "ftp://y/z.png") = true
  ∧ startswith (lit "ftp://y/z.png") (lit "http") = false
  ∧ rewrite_images (lit "abc") (lit "![x](ftp://y/z.png)")
    = lit "![x](/image/abc/ftp://y/z.png)"
  ∧ rewrite_images (lit "abc") (lit "![x](ftp://y/z.png)")
    ≠ lit "![x](ftp://y/z.png)".
Proof. split_and!; [reflexivity | reflexivity | reflexivity | by vm_compute]. Qed.

(** * Further properties of the code *)

(** ** The scanner, continued *)

Lemma extract_content_listed (lower : str -> str) (fd : Folder) :
  content (extract_instruction_info lower fd) ≠ [] →
  folder_exists fd = true
  ∧ ∃ m files, folder_mtime fd = Ok m ∧ folder_files fd = Ok files.
Proof.
  unfold extract_instruction_info.
  destruct (folder_exists fd); simpl; [| done].
  destruct (folder_mtime fd) as [m |]; [| done].
  destruct (folder_files fd) as [files |]; [| done]. eauto.
Qed.

Lemma insert_desc_filter (m : Z) (x : Doc) (l : list Doc) :
  StronglySorted newer_first l →
  filter (λ d, modified d = m) (insert_desc x l)
  = filter (λ d, modified d = m) l ++ filter (λ d, modified d = m) [x].
Proof.
  induction l as [|y l IH]; intros Hs; [done |].
  apply StronglySorted_inv in Hs as [Hl Hy]. cbn [insert_desc].
  destruct (Z.leb_spec (modified x) (modified y)) as [Hle | Hlt].
  - rewrite !(filter_cons _ y), IH by done. by case_decide.
  - rewrite (filter_cons _ x), (filter_cons _ x []), filter_nil.
    case_decide as Hx; [| by rewrite app_nil_r].
    rewrite filter_none; [done |].
    intros z Hz Hzm. apply elem_of_cons in Hz as [-> | Hz]; [lia |].
    rewrite Forall_forall in Hy. specialize (Hy z Hz).
    unfold newer_first in Hy. lia.
Qed.

Lemma sort_desc_filter_from (m : Z) (l acc : list Doc) :
  StronglySorted newer_first acc →
  filter (λ d, modified d = m) (fold_left (λ acc x, insert_desc x acc) l acc)
  = filter (λ d, modified d = m) acc ++ filter (λ d, modified d = m) l.
Proof.
  revert acc. induction l as [|x l IH]; intros acc Hacc; simpl.
  - by rewrite app_nil_r.
  - rewrite IH by (by apply insert_desc_sorted).
    rewrite insert_desc_filter by done.
    by rewrite <- app_assoc, <- filter_app.
Qed.

(** X1. The scanner returns one document for each directory that yields
    content, none for anything else, and its sort is stable: documents of
    equal modification time stay in the order of enumeration. *)
Theorem scan_stable (lower : str -> str) (folders : list Folder) (m : Z) :
  scan_instructions lower {| data_exists := true; data_listing := Ok folders |}
  ≡ₚ filter (λ d, content d ≠ [])
       (extract_instruction_info lower
          <$> filter (λ fd, folder_isdir fd = true) folders)
  ∧ filter (λ d, modified d = m)
      (scan_instructions lower
         {| data_exists := true; data_listing := Ok folders |})
    = filter (λ d, modified d = m)
        (filter (λ d, content d ≠ [])
           (extract_instruction_info lower
              <$> filter (λ fd, folder_isdir fd = true) folders)).
Proof.
  unfold scan_instructions. simpl. rewrite scan_loop_filter. simpl. split.
  - apply sort_desc_perm.
  - unfold sort_desc. rewrite sort_desc_filter_from by constructor. done.
Qed.

(** The ids of a scan are, up to order, some of the folder names, each taken
    at most as often as it is listed. *)
Lemma scan_ids_from_folders (lower : str -> str) (folders : list Folder) :
  ∃ names,
    id <$> scan_instructions lower
             {| data_exists := true; data_listing := Ok folders |} ≡ₚ names
    ∧ names `sublist_of` folder_name <$> folders.
Proof.
  exists (id <$> filter (λ d, content d ≠ [])
                   (extract_instruction_info lower
                      <$> filter (λ fd, folder_isdir fd = true) folders)).
  split.
  - unfold scan_instructions. simpl.
    by rewrite sort_desc_perm, scan_loop_filter.
  - etrans; [apply fmap_sublist, sublist_filter |].
    rewrite <- list_fmap_compose.
    erewrite (list_fmap_ext (id ∘ extract_instruction_info lower) folder_name);
      [| intros; apply extract_id].
    apply fmap_sublist, sublist_filter.
Qed.

(** X2. Distinct folder names give distinct document ids: no two documents
    of a scan share an id. *)
Theorem scan_ids_distinct (lower : str -> str) (folders : list Folder) :
  NoDup (folder_name <$> folders) →
  NoDup (id <$> scan_instructions lower
                  {| data_exists := true; data_listing := Ok folders |}).
Proof.
  intros Hnd.
  destruct (scan_ids_from_folders lower folders) as (names & Hperm & Hsub).
  rewrite Hperm. by eapply sublist_NoDup.
Qed.

Lemma scan_ids_distinct_witness :
  NoDup (folder_name <$> [folder_unreadable_md; folder_two_md_A])
  ∧ NoDup (id <$> scan_instructions lower_basic
                    {| data_exists := true;
                       data_listing :=
                         Ok [folder_unreadable_md; folder_two_md_A] |}).
Proof.
  assert (NoDup (folder_name <$> [folder_unreadable_md; folder_two_md_A]))
    as Hnd by (by apply (bool_decide_unpack _)).
  split; [exact Hnd |]. exact (scan_ids_distinct lower_basic _ Hnd).
Defined.

Lemma visit_file_images (lower : str -> str) (info : Doc) (f : File) :
  images (visit_file lower info f)
  = images info
    ++ (file_name
          <$> filter (λ f, is_md (file_name f) = false
                           ∧ is_image lower (file_name f) = true) [f]).
Proof.
  unfold visit_file, read_md. rewrite filter_cons, filter_nil.
  destruct (is_md (file_name f)) eqn:Emd.
  - rewrite decide_False by (by intros [? ?]).
    rewrite app_nil_r. by repeat case_match.
  - destruct (is_image lower (file_name f)) eqn:Eimg.
    + by rewrite decide_True.
    + rewrite decide_False by (by intros [? ?]). by rewrite app_nil_r.
Qed.

Lemma fold_visit_images (lower : str -> str) (files : list File) (info : Doc) :
  images (fold_left (visit_file lower) files info)
  = images info
    ++ (file_name
          <$> filter (λ f, is_md (file_name f) = false
                           ∧ is_image lower (file_name f) = true) files).
Proof.
  revert info. induction files as [|f files IH]; intros info; simpl.
  - by rewrite app_nil_r.
  - rewrite IH, visit_file_images, <- app_assoc. f_equal.
    rewrite <- fmap_app. f_equal.
    change (f :: files) with ([f] ++ files). by rewrite filter_app.
Qed.

(** X3. The images of a folder that can be listed are the names of its
    files that do not end in [.md] and whose lowered name ends in one of
    the five image extensions, in enumeration order. *)
Theorem extract_images (lower : str -> str) (fd : Folder) (m : Z)
    (files : list File) :
  folder_exists fd = true → folder_mtime fd = Ok m →
  folder_files fd = Ok files →
  images (extract_instruction_info lower fd)
  = file_name
      <$> filter (λ f, is_md (file_name f) = false
                       ∧ is_image lower (file_name f) = true) files.
Proof.
  intros He Hm Hfiles. unfold extract_instruction_info.
  rewrite He, Hm, Hfiles. simpl. by rewrite fold_visit_images.
Qed.

Lemma extract_images_witness :
  folder_exists folder_empty_md = true
  ∧ folder_mtime folder_empty_md = Ok 6%Z
  ∧ images (extract_instruction_info lower_basic folder_empty_md)
    = [lit "pic.PNG"].
Proof.
  split_and!; [reflexivity | reflexivity |].
  exact (extract_images lower_basic folder_empty_md 6 _
           eq_refl eq_refl eq_refl).
Defined.

(** ** The title pattern, continued *)

Lemma title_search_nonempty (text t : str) :
  title_search text = Some t → t ≠ [].
Proof.
  revert t. induction text as [|c s IH]; intros t; simpl; [done |].
  destruct (c =? hash); [| by apply IH].
  destruct (match_spaces s) as [t' |] eqn:Es; [| by apply IH].
  intros [= <-]. by apply match_spaces_spec in Es as [? _].
Qed.

(** X4. A title found by the pattern is never empty and holds no line feed;
    it stands in the text behind a [#] and white space and runs to the end
    of its line. *)
Theorem title_search_capture (text t : str) :
  title_search text = Some t →
  t ≠ [] ∧ (newline ∉ t)
  ∧ ∃ pre ws post,
      text = pre ++ hash :: ws ++ t ++ post
      ∧ ws ≠ [] ∧ forallb is_space ws = true
      ∧ (post = [] ∨ head post = Some newline).
Proof.
  revert t. induction text as [|c s IH]; intros t; simpl; [done |].
  destruct (N.eqb_spec c hash) as [-> | Hc].
  - destruct (match_spaces s) as [t' |] eqn:Es.
    + intros [= <-].
      destruct (match_spaces_spec s t' Es) as (? & ? & ws & post & -> & ? & ? & ?).
      split; [done |]. split; [done |]. by exists [], ws, post.
    + intros H. destruct (IH t H) as (? & ? & pre & ws & post & -> & ? & ? & ?).
      split; [done |]. split; [done |]. by exists (hash :: pre), ws, post.
  - intros H. destruct (IH t H) as (? & ? & pre & ws & post & -> & ? & ? & ?).
    split; [done |]. split; [done |]. by exists (c :: pre), ws, post.
Qed.

Lemma title_search_capture_witness :
  title_search (lit "## Sub") = Some (lit "Sub")
  ∧ lit "Sub" ≠ [] ∧ (newline ∉ lit "Sub").
Proof.
  assert (title_search (lit "## Sub") = Some (lit "Sub")) as H by reflexivity.
  destruct (title_search_capture _ _ H) as (H1 & H2 & _).
  split_and!; [exact H | exact H1 | exact H2].
Defined.

(** X5. When no folder has the empty name, no document of a scan has an
    empty title. *)
Theorem scan_titles_nonempty (lower : str -> str) (folders : list Folder)
    (d : Doc) :
  (∀ fd, fd ∈ folders → folder_name fd ≠ []) →
  d ∈ scan_instructions lower
        {| data_exists := true; data_listing := Ok folders |} →
  title d ≠ [].
Proof.
  intros Hnames [Hc (fd & Hfd & _ & ->)]%scan_elem_of.
  destruct (extract_content_listed lower fd Hc) as (He & m & files & Hm & Hfiles).
  destruct (extract_listed lower fd m files He Hm Hfiles) as (_ & _ & ->).
  destruct (last (omap md_heading (md_files files))) as [t |] eqn:El; simpl.
  - apply last_Some_elem_of, list_elem_of_omap in El as (f & _ & Hf).
    unfold md_heading in Hf. destruct (file_read f) as [text |]; [| done].
    by apply title_search_nonempty in Hf.
  - by apply Hnames.
Qed.

Lemma scan_titles_nonempty_witness :
  (∀ fd, fd ∈ [folder_subheading] → folder_name fd ≠ [])
  ∧ title (extract_instruction_info lower_basic folder_subheading) ≠ [].
Proof.
  assert (∀ fd, fd ∈ [folder_subheading] → folder_name fd ≠ []) as Hn.
  { intros fd ->%list_elem_of_singleton. done. }
  split; [exact Hn |].
  apply (scan_titles_nonempty lower_basic [folder_subheading] _ Hn).
  apply scan_keeps; [left | reflexivity | done].
Defined.

(** ** Search, continued *)

Lemma find_contains (s p : str) : contains s p = true ↔ is_Some (find s p).
Proof.
  induction s as [|c s IH]; cbn [contains find].
  - destruct (startswith [] p); simpl; [by eauto |].
    split; [done | by intros [? ?]].
  - destruct (startswith (c :: s) p); simpl; [by eauto |].
    rewrite IH. destruct (find s p); simpl; split; eauto; by intros [? ?].
Qed.

(** [find] gives the first place where [p] stands in [s]. *)
Lemma find_first (s p : str) (i : nat) :
  find s p = Some i →
  startswith (drop i s) p = true
  ∧ ∀ j, (j < i)%nat → startswith (drop j s) p = false.
Proof.
  revert i. induction s as [|c s IH]; intros i; cbn [find].
  - destruct (startswith [] p) eqn:E; [| done].
    intros [= <-]. split; [done | lia].
  - destruct (startswith (c :: s) p) eqn:E.
    + intros [= <-]. split; [done | lia].
    + destruct (find s p) as [i' |]; [| done]. simpl. intros [= <-].
      destruct (IH i' eq_refl) as [H1 H2]. split; [done |].
      intros [|j] Hj; [done |]. apply H2. lia.
Qed.

Section SearchStore.

Variable lower : str -> str.

Lemma preview_update_same_text (q st : str) (d : Doc) :
  same_text d (preview_update lower q st d).
Proof.
  unfold preview_update. repeat case_bool_decide; repeat case_match;
    first [apply same_text_set_preview | apply same_text_refl].
Qed.

(** What is written depends on the title and the content only. *)
Lemma preview_update_text (q st : str) (d d' : Doc) :
  same_text d d' →
  preview_update lower q st d' = preview_update lower q st d
  ∨ (preview_update lower q st d' = d' ∧ preview_update lower q st d = d).
Proof.
  intros (Hid & Ht & Hc & Hi & Hm). unfold preview_update, content_preview.
  rewrite <- Ht, <- Hc.
  repeat case_bool_decide; repeat case_match; auto; left;
    unfold set_preview; by rewrite <- Hid, <- Ht, <- Hc, <- Hi, <- Hm.
Qed.

Lemma preview_update_idemp (q st : str) (d : Doc) :
  preview_update lower q st (preview_update lower q st d)
  = preview_update lower q st d.
Proof.
  destruct (preview_update_text q st d (preview_update lower q st d)
              (preview_update_same_text q st d)) as [-> | [-> _]]; [| done].
  done.
Qed.

(** One turn of the loop, read at a location of the store. *)
Lemma search_visit_lookup (q st sm : str) (h : store) (l l' : loc) :
  (search_visit lower q st sm h l).2 !!! l'
  = if (search_visit lower q st sm h l).1 && bool_decide (l' = l)
    then preview_update lower q st (h !!! l)
    else h !!! l'.
Proof.
  unfold search_visit, preview_update.
  repeat case_bool_decide; subst; simpl;
    rewrite ?andb_false_r, ?andb_true_r;
    repeat (case_match; simpl);
    rewrite ?lookup_total_insert_eq, ?lookup_total_insert_ne by done;
    done.
Qed.

(** After the loop the dictionaries of the instructions returned are
    updated, and all other dictionaries are as before. *)
Lemma search_loop_lookup (q st sm : str) (h0 : store) (instrs : list loc) :
  ∀ (results : list loc) (h : store),
    (∀ l, h !!! l = if bool_decide (l ∈ results)
                    then preview_update lower q st (h0 !!! l)
                    else h0 !!! l) →
    ∀ l, (search_loop lower q st sm instrs results h).2 !!! l
         = if bool_decide (l ∈ (search_loop lower q st sm instrs results h).1)
           then preview_update lower q st (h0 !!! l)
           else h0 !!! l.
Proof.
  induction instrs as [|i instrs IH]; intros results h Hinv; simpl; [done |].
  pose proof (search_visit_lookup q st sm h i) as Hlook.
  destruct (search_visit lower q st sm h i) as [hit h'] eqn:Ev. simpl in Hlook.
  apply IH. intros l. rewrite Hlook. destruct hit; simpl.
  - case_bool_decide as Hl; [subst l |].
    + rewrite bool_decide_eq_true_2 by (apply elem_of_app; right; left).
      rewrite Hinv. case_bool_decide; [apply preview_update_idemp | done].
    + rewrite Hinv.
      assert (bool_decide (l ∈ results ++ [i]) = bool_decide (l ∈ results))
        as -> ; [| done].
      apply bool_decide_ext.
      rewrite elem_of_app, list_elem_of_singleton. tauto.
  - apply Hinv.
Qed.

Lemma search_store (instrs : list loc) (q st sm : str) (h : store) (l : loc) :
  q ≠ [] →
  (search_in_instructions lower instrs q st sm h).2 !!! l
  = if bool_decide (l ∈ (search_in_instructions lower instrs q st sm h).1)
    then preview_update lower (strip (lower q)) st (h !!! l)
    else h !!! l.
Proof.
  intros Hq. unfold search_in_instructions. destruct q as [|c q]; [done |].
  apply search_loop_lookup. intros l'. by rewrite bool_decide_eq_false_2
    by apply not_elem_of_nil.
Qed.

End SearchStore.

Lemma content_not_title : lit "content" ≠ lit "title".
Proof. by vm_compute. Qed.

Lemma search_hit_title (lower : str -> str) (q sm : str) (d : Doc) :
  search_hit lower q (lit "title") sm d = contains (lower (title d)) q.
Proof. unfold search_hit. by rewrite bool_decide_eq_true_2. Qed.

Lemma search_hit_content (lower : str -> str) (q sm : str) (d : Doc) :
  search_hit lower q (lit "content") sm d = contains (lower (content d)) q.
Proof.
  unfold search_hit. rewrite (bool_decide_eq_false_2 _ content_not_title).
  by rewrite bool_decide_eq_true_2.
Qed.

Lemma search_hit_exact (lower : str -> str) (q : str) (d : Doc) :
  search_hit lower q (lit "advanced") (lit "exact") d
  = contains (lower (content d)) q || contains (lower (title d)) q.
Proof.
  unfold search_hit.
  rewrite (bool_decide_eq_false_2 _ advanced_not_title).
  rewrite (bool_decide_eq_false_2 _ advanced_not_content).
  by rewrite !bool_decide_eq_true_2.
Qed.

(** X6. A title search with a non-empty query returns the instructions
    whose lowered title holds the lowered, stripped query; it writes the
    preview, the label followed by the title, into the dictionaries of the
    instructions it returns and leaves every other dictionary as it was. *)
Theorem search_title_preview (lower : str -> str) (instrs : list loc)
    (q sm : str) (h : store) (l : loc) :
  q ≠ [] →
  (l ∈ (search_in_instructions lower instrs q (lit "title") sm h).1
   ↔ l ∈ instrs ∧ substring (strip (lower q)) (lower (title (h !!! l))))
  ∧ (l ∈ (search_in_instructions lower instrs q (lit "title") sm h).1 →
     (search_in_instructions lower instrs q (lit "title") sm h).2 !!! l
     = set_preview (preview_title_label ++ title (h !!! l)) (h !!! l))
  ∧ (l ∉ (search_in_instructions lower instrs q (lit "title") sm h).1 →
     (search_in_instructions lower instrs q (lit "title") sm h).2 !!! l
     = h !!! l).
Proof.
  intros Hq. pose proof (search_store lower instrs q (lit "title") sm h l Hq)
    as Hst.
  split_and!.
  - destruct (search_results lower instrs q (lit "title") sm h Hq) as [-> _].
    rewrite list_elem_of_filter, search_hit_title, contains_substring. tauto.
  - intros Hl. rewrite Hst, bool_decide_eq_true_2 by done.
    unfold preview_update. by rewrite bool_decide_eq_true_2.
  - intros Hl. by rewrite Hst, bool_decide_eq_false_2.
Qed.

Lemma search_title_preview_witness :
  lit "FOO" ≠ []
  ∧ (search_in_instructions lower_basic [0; 1]%nat (lit "FOO") (lit "title")
       (lit "any") example_store).2 !!! 1%nat
    = set_preview (preview_title_label ++ lit "foo bar") doc_foo_bar.
Proof.
  assert (lit "FOO" ≠ []) as Hq by done.
  split; [exact Hq |].
  destruct (search_title_preview lower_basic [0; 1]%nat (lit "FOO") (lit "any")
              example_store 1%nat Hq) as (_ & Hp & _).
  apply Hp. by apply (bool_decide_unpack _).
Defined.

(** X7. A content search with a non-empty query never returns an
    instruction without writing its preview: the query is found in the
    lowered content, at its first occurrence, and the preview is built
    around that position. Dictionaries of instructions not returned are
    left as they were. *)
Theorem search_content_writes_preview (lower : str -> str)
    (instrs : list loc) (q sm : str) (h : store) (l : loc) :
  q ≠ [] →
  (l ∈ (search_in_instructions lower instrs q (lit "content") sm h).1 →
   ∃ pos,
     find (lower (content (h !!! l))) (strip (lower q)) = Some pos
     ∧ startswith (drop pos (lower (content (h !!! l)))) (strip (lower q))
       = true
     ∧ (∀ j, (j < pos)%nat →
             startswith (drop j (lower (content (h !!! l)))) (strip (lower q))
             = false)
     ∧ (search_in_instructions lower instrs q (lit "content") sm h).2 !!! l
       = set_preview
           (content_preview lower (h !!! l) (strip (lower q)) pos) (h !!! l))
  ∧ (l ∉ (search_in_instructions lower instrs q (lit "content") sm h).1 →
     (search_in_instructions lower instrs q (lit "content") sm h).2 !!! l
     = h !!! l).
Proof.
  intros Hq. pose proof (search_store lower instrs q (lit "content") sm h l Hq)
    as Hst.
  split.
  - intros Hl. rewrite Hst, bool_decide_eq_true_2 by done.
    destruct (search_results lower instrs q (lit "content") sm h Hq)
      as [Hres _].
    rewrite Hres in Hl. apply list_elem_of_filter in Hl as [Hhit _].
    rewrite search_hit_content in Hhit.
    apply find_contains in Hhit as [pos Hpos]. exists pos.
    destruct (find_first _ _ _ Hpos) as [H1 H2].
    split_and!; try done.
    unfold preview_update.
    rewrite (bool_decide_eq_false_2 _ content_not_title).
    rewrite bool_decide_eq_true_2 by done. by rewrite Hpos.
  - intros Hl. by rewrite Hst, bool_decide_eq_false_2.
Qed.

Lemma search_content_writes_preview_witness :
  lit "BAR" ≠ []
  ∧ ∃ pos,
      find (lower_basic (content (example_store !!! 0%nat)))
        (strip (lower_basic (lit "BAR"))) = Some pos
      ∧ (search_in_instructions lower_basic [0; 1]%nat (lit "BAR")
           (lit "content") (lit "any") example_store).2 !!! 0%nat
        = set_preview
            (content_preview lower_basic (example_store !!! 0%nat)
               (strip (lower_basic (lit "BAR"))) pos)
            (example_store !!! 0%nat).
Proof.
  assert (lit "BAR" ≠ []) as Hq by done.
  split; [exact Hq |].
  destruct (search_content_writes_preview lower_basic [0; 1]%nat (lit "BAR")
              (lit "any") example_store 0%nat Hq) as [Hp _].
  destruct Hp as (pos & H1 & _ & _ & H2); [by apply (bool_decide_unpack _) |].
  exists pos. split; [exact H1 | exact H2].
Defined.

Lemma substring_trans (a b c : str) :
  substring a b → substring b c → substring a c.
Proof.
  intros (x & y & ->) (x' & y' & ->). exists (x' ++ x), (y ++ y').
  by rewrite <- !app_assoc.
Qed.

(** The words [s.split()] gives stand in [s]. *)
Lemma split_from_substring (s cur w : str) :
  w ∈ split_from cur s → substring w (rev cur ++ s).
Proof.
  revert cur. induction s as [|c s IH]; intros cur; simpl.
  - destruct cur as [|c' cur]; [by intros ?%elem_of_nil |].
    intros ->%list_elem_of_singleton. exists [], []. by rewrite app_nil_r.
  - destruct (is_space c).
    + assert (w ∈ split_from [] s → substring w (rev cur ++ c :: s)) as Hrest.
      { intros (a & b & Hs)%IH. simpl in Hs. exists (rev cur ++ c :: a), b.
        rewrite Hs. by rewrite <- app_assoc. }
      destruct cur as [|c' cur]; [done |].
      intros [-> | Hw]%elem_of_cons; [| auto].
      by exists [], (c :: s).
    + intros (a & b & Hs)%IH. exists a, b. rewrite <- Hs. simpl.
      by rewrite <- app_assoc.
Qed.

Lemma split_substring (s w : str) : w ∈ split s → substring w s.
Proof. apply (split_from_substring s []). Qed.

Lemma filter_sublist_impl {A} (P Q : A → Prop) `{∀ x, Decision (P x)}
    `{∀ x, Decision (Q x)} (l : list A) :
  (∀ x, P x → Q x) → filter P l `sublist_of` filter Q l.
Proof.
  intros HPQ. induction l as [|x l IH]; [done |].
  rewrite !filter_cons. destruct (decide (P x)) as [HP | HP].
  - rewrite decide_True by auto. by constructor.
  - case_decide; [by constructor | done].
Qed.

Lemma forallb_existsb {A} (f : A → bool) (l : list A) :
  l ≠ [] → forallb f l = true → existsb f l = true.
Proof.
  destruct l as [|x l]; [done |]. simpl.
  intros _ [-> _]%andb_true_iff. done.
Qed.

(** X8. For one query the advanced modes are nested: what [exact] returns,
    [all] returns too, and, when the query holds a word, what [all] returns,
    [any] returns too. *)
Theorem search_modes_nested (lower : str -> str) (instrs : list loc)
    (q : str) (h : store) :
  q ≠ [] →
  (search_in_instructions lower instrs q (lit "advanced") (lit "exact") h).1
  `sublist_of`
  (search_in_instructions lower instrs q (lit "advanced") (lit "all") h).1
  ∧ (split (strip (lower q)) ≠ [] →
     (search_in_instructions lower instrs q (lit "advanced") (lit "all") h).1
     `sublist_of`
     (search_in_instructions lower instrs q (lit "advanced") (lit "any") h).1).
Proof.
  intros Hq.
  destruct (search_results lower instrs q (lit "advanced") (lit "exact") h Hq)
    as [-> _].
  destruct (search_results lower instrs q (lit "advanced") (lit "all") h Hq)
    as [-> _].
  destruct (search_results lower instrs q (lit "advanced") (lit "any") h Hq)
    as [-> _].
  split.
  - apply filter_sublist_impl. intros l.
    rewrite search_hit_exact, search_hit_all, !orb_true_iff.
    rewrite !forallb_contains, !contains_substring.
    intros [Hc | Ht]; [left | right]; intros w Hw;
      (eapply substring_trans; [by apply split_substring |]); done.
  - intros Hwords. apply filter_sublist_impl. intros l.
    rewrite search_hit_all, search_hit_any, !orb_true_iff.
    intros [Hc | Ht]; [left | right]; by apply forallb_existsb.
Qed.

Lemma search_modes_nested_witness :
  lit "foo bar" ≠ []
  ∧ split (strip (lower_basic (lit "foo bar"))) ≠ []
  ∧ (search_in_instructions lower_basic [0; 1]%nat (lit "foo bar")
       (lit "advanced") (lit "all") example_store).1
    `sublist_of`
    (search_in_instructions lower_basic [0; 1]%nat (lit "foo bar")
       (lit "advanced") (lit "any") example_store).1.
Proof.
  assert (lit "foo bar" ≠ []) as Hq by done.
  assert (split (strip (lower_basic (lit "foo bar"))) ≠ []) as Hw
    by (by vm_compute).
  split_and!; [exact Hq | exact Hw |].
  exact (proj2 (search_modes_nested lower_basic [0; 1]%nat (lit "foo bar")
                  example_store Hq) Hw).
Defined.

Lemma search_loop_same_visit (lower : str -> str) (q st sm st' sm' : str)
    (instrs : list loc) :
  (∀ h l, search_visit lower q st sm h l = search_visit lower q st' sm' h l) →
  ∀ results h,
    search_loop lower q st sm instrs results h
    = search_loop lower q st' sm' instrs results h.
Proof.
  intros Hv. induction instrs as [|l instrs IH]; intros results h; simpl;
    [done |].
  rewrite Hv. destruct (search_visit lower q st' sm' h l). apply IH.
Qed.

(** X9. A search type other than [title], [content] and [advanced] finds
    nothing and writes nothing; in an advanced search every mode other than
    [exact] and [all] is the mode [any]. *)
Theorem search_unknown_type_and_mode (lower : str -> str) (instrs : list loc)
    (q st sm : str) (h : store) :
  q ≠ [] →
  (st ≠ lit "title" → st ≠ lit "content" → st ≠ lit "advanced" →
   search_in_instructions lower instrs q st sm h = ([], h))
  ∧ (sm ≠ lit "exact" → sm ≠ lit "all" →
     search_in_instructions lower instrs q (lit "advanced") sm h
     = search_in_instructions lower instrs q (lit "advanced") (lit "any") h).
Proof.
  intros Hq. split.
  - intros H1 H2 H3. apply injective_projections.
    + destruct (search_results lower instrs q st sm h Hq) as [-> _].
      simpl. apply filter_none. intros l _. unfold search_hit.
      by rewrite !bool_decide_eq_false_2 by done.
    + unfold search_in_instructions. destruct q; [done |].
      by apply search_loop_advanced.
  - intros H1 H2. unfold search_in_instructions. destruct q; [done |].
    apply search_loop_same_visit. intros h' l. unfold search_visit.
    rewrite (bool_decide_eq_false_2 _ H1), (bool_decide_eq_false_2 _ H2).
    rewrite (bool_decide_eq_false_2 _ any_not_exact).
    by rewrite (bool_decide_eq_false_2 _ any_not_all).
Qed.

Lemma search_unknown_type_and_mode_witness :
  lit "foo" ≠ []
  ∧ search_in_instructions lower_basic [0; 1]%nat (lit "foo") (lit "tags")
      (lit "any") example_store = ([], example_store)
  ∧ search_in_instructions lower_basic [0; 1]%nat (lit "foo") (lit "advanced")
      (lit "some") example_store
    = search_in_instructions lower_basic [0; 1]%nat (lit "foo")
        (lit "advanced") (lit "any") example_store.
Proof.
  assert (lit "foo" ≠ []) as Hq by done.
  split_and!; [exact Hq | |].
  - apply (search_unknown_type_and_mode lower_basic [0; 1]%nat (lit "foo")
             (lit "tags") (lit "any") example_store Hq); by vm_compute.
  - apply (search_unknown_type_and_mode lower_basic [0; 1]%nat (lit "foo")
             (lit "advanced") (lit "some") example_store Hq); by vm_compute.
Defined.

(** X10. Searching again, with the same query, type and mode, in what a
    search returned returns the same list. *)
Theorem search_again (lower : str -> str) (instrs : list loc)
    (q st sm : str) (h : store) :
  q ≠ [] →
  (search_in_instructions lower
     (search_in_instructions lower instrs q st sm h).1 q st sm
     (search_in_instructions lower instrs q st sm h).2).1
  = (search_in_instructions lower instrs q st sm h).1.
Proof.
  intros Hq.
  destruct (search_results lower instrs q st sm h Hq) as [Hres Hst].
  destruct (search_results lower (search_in_instructions lower instrs q st sm h).1
              q st sm (search_in_instructions lower instrs q st sm h).2 Hq)
    as [-> _].
  apply filter_all. intros l Hl. rewrite Hres in Hl.
  apply list_elem_of_filter in Hl as [Hhit _].
  by rewrite <- (search_hit_same_text lower _ st sm _ _ (Hst l)).
Qed.

Lemma search_again_witness :
  lit "BAR" ≠ []
  ∧ (search_in_instructions lower_basic
       (search_in_instructions lower_basic [0; 1]%nat (lit "BAR")
          (lit "content") (lit "any") example_store).1
       (lit "BAR") (lit "content") (lit "any")
       (search_in_instructions lower_basic [0; 1]%nat (lit "BAR")
          (lit "content") (lit "any") example_store).2).1
    = (search_in_instructions lower_basic [0; 1]%nat (lit "BAR")
         (lit "content") (lit "any") example_store).1.
Proof.
  assert (lit "BAR" ≠ []) as Hq by done.
  split; [exact Hq |].
  exact (search_again lower_basic [0; 1]%nat (lit "BAR") (lit "content")
           (lit "any") example_store Hq).
Defined.

(** ** The image pass, continued *)

Lemma rewrite_images_ref (d alt target : str) :
  rbracket ∉ alt → target ≠ [] → rparen ∉ target →
  rewrite_images d (image_ref alt target)
  = if startswith target (lit "http") then image_ref alt target
    else image_ref alt (lit "/image/" ++ d ++ lit "/" ++ target).
Proof.
  intros Halt Hne Htarget.
  rewrite <- (app_nil_r (image_ref alt target)) at 1.
  rewrite (rewrite_images_match d _ alt target [])
    by (by apply match_image_ref).
  by rewrite replace_image_cases, app_nil_r.
Qed.

(** X11. The image pass is not idempotent on local references: a target
    that begins with [http] is a fixed point, any other target gets the
    route prefix again at each application. *)
Theorem rewrite_images_twice (d alt target : str) :
  rbracket ∉ alt → target ≠ [] → rparen ∉ target → rparen ∉ d →
  (startswith target (lit "http") = true →
   rewrite_images d (rewrite_images d (image_ref alt target))
   = image_ref alt target)
  ∧ (startswith target (lit "http") = false →
     rewrite_images d (rewrite_images d (image_ref alt target))
     = image_ref alt
         (lit "/image/" ++ d ++ lit "/" ++ lit "/image/" ++ d ++ lit "/"
          ++ target)).
Proof.
  intros Halt Hne Htarget Hd. split; intros Hhttp.
  - rewrite rewrite_images_ref, Hhttp by done.
    by rewrite rewrite_images_ref, Hhttp.
  - rewrite rewrite_images_ref, Hhttp by done.
    assert (rparen ∉ lit "/image/" ++ d ++ lit "/" ++ target) as Hroute.
    { rewrite !not_elem_of_app. split_and!; try done;
        by apply (bool_decide_unpack _). }
    by rewrite rewrite_images_ref.
Qed.

Lemma rewrite_images_twice_witness :
  (rbracket ∉ lit "x") ∧ lit "pic.png" ≠ [] ∧ (rparen ∉ lit "pic.png")
  ∧ (rparen ∉ lit "abc")
  ∧ startswith (lit "pic.png") (lit "http") = false
  ∧ rewrite_images (lit "abc")
      (rewrite_images (lit "abc") (image_ref (lit "x") (lit "pic.png")))
    = image_ref (lit "x")
        (lit "/image/" ++ lit "abc" ++ lit "/" ++ lit "/image/" ++ lit "abc"
         ++ lit "/" ++ lit "pic.png").
Proof.
  assert (rbracket ∉ lit "x") as H1 by (by apply (bool_decide_unpack _)).
  assert (lit "pic.png" ≠ []) as H2 by done.
  assert (rparen ∉ lit "pic.png") as H3 by (by apply (bool_decide_unpack _)).
  assert (rparen ∉ lit "abc") as H4 by (by apply (bool_decide_unpack _)).
  split_and!; [exact H1 | exact H2 | exact H3 | exact H4 | reflexivity |].
  exact (proj2 (rewrite_images_twice (lit "abc") (lit "x") (lit "pic.png")
                  H1 H2 H3 H4) eq_refl).
Defined.

Lemma match_image_not_bracket (c1 c2 : char) (s : str) :
  c2 ≠ lbracket → match_image (c1 :: c2 :: s) = None.
Proof.
  intros H. unfold match_image.
  destruct (N.eqb_spec c2 lbracket); [done |]. by rewrite andb_false_r.
Qed.

(** Text that holds no "![" is copied, when what follows does not begin
    with an opening bracket. *)
Lemma rewrite_images_plain (d pre s : str) :
  contains pre (lit "![") = false → head s ≠ Some lbracket →
  rewrite_images d (pre ++ s) = pre ++ rewrite_images d s.
Proof.
  intros Hpre Hs. induction pre as [|c pre IH]; [done |].
  cbn [contains] in Hpre. apply orb_false_iff in Hpre as [Hhere Hpre].
  change ((c :: pre) ++ s) with (c :: (pre ++ s)).
  rewrite rewrite_images_no_match; [by rewrite IH |].
  destruct (N.eqb_spec c bang) as [-> | Hc];
    [| by apply match_image_not_bang].
  destruct pre as [|c2 pre].
  - destruct s as [|c2 s]; [done |].
    apply match_image_not_bracket. intros ->. by apply Hs.
  - apply match_image_not_bracket. intros ->.
    by vm_compute in Hhere.
Qed.

(** X22. A markdown image reference (alternative text without closing
    bracket, target not empty and without closing parenthesis) that follows
    text in which "![" does not occur, in the document [d]: if the target
    begins with the four characters [http] the reference is left as it is,
    otherwise it becomes the reference to [/image/d/target]; the text before
    it is copied and the pass goes on behind it. A text in which the pattern
    matches nowhere is returned as it is. *)
Theorem rewrite_images_in_text (d pre alt target post : str) :
  ¬ substring (lit "![") pre →
  rbracket ∉ alt → target ≠ [] → rparen ∉ target →
  rewrite_images d (pre ++ image_ref alt target ++ post)
  = pre
    ++ (if startswith target (lit "http") then image_ref alt target
        else image_ref alt (lit "/image/" ++ d ++ lit "/" ++ target))
    ++ rewrite_images d post
  ∧ (∀ s, (∀ i, match_image (drop i s) = None) → rewrite_images d s = s).
Proof.
  intros Hpre Halt Hne Htarget. split.
  - rewrite rewrite_images_plain.
    + f_equal.
      rewrite (rewrite_images_match d _ alt target post)
        by (by apply match_image_ref).
      by rewrite replace_image_cases.
    + destruct (contains pre (lit "![")) eqn:E; [| done].
      by apply contains_substring in E.
    + by rewrite image_ref_cons.
  - apply rewrite_images_unmatched.
Qed.

Lemma rewrite_images_in_text_witness :
  ¬ substring (lit "![") (lit "Hello! ")
  ∧ (rbracket ∉ lit "x") ∧ lit "pic.png" ≠ [] ∧ (rparen ∉ lit "pic.png")
  ∧ rewrite_images (lit "abc")
      (lit "Hello! " ++ image_ref (lit "x") (lit "pic.png") ++ lit " and more")
    = lit "Hello! "
      ++ (if startswith (lit "pic.png") (lit "http")
          then image_ref (lit "x") (lit "pic.png")
          else image_ref (lit "x")
                 (lit "/image/" ++ lit "abc" ++ lit "/" ++ lit "pic.png"))
      ++ rewrite_images (lit "abc") (lit " and more").
Proof.
  assert (¬ substring (lit "![") (lit "Hello! ")) as H0.
  { intros H%contains_substring. by vm_compute in H. }
  assert (rbracket ∉ lit "x") as H2 by (by apply (bool_decide_unpack _)).
  assert (lit "pic.png" ≠ []) as H3 by done.
  assert (rparen ∉ lit "pic.png") as H4 by (by apply (bool_decide_unpack _)).
  split_and!; [exact H0 | exact H2 | exact H3 | exact H4 |].
  exact (proj1 (rewrite_images_in_text (lit "abc") (lit "Hello! ") (lit "x")
                  (lit "pic.png") (lit " and more") H0 H2 H3 H4)).
Defined.

(** ** Share links *)

Lemma span_while_spec (p : char → bool) (s run rest : str) :
  span_while p s = (run, rest) →
  s = run ++ rest ∧ forallb p run = true
  ∧ (rest = [] ∨ ∃ c r, rest = c :: r ∧ p c = false).
Proof.
  revert run rest. induction s as [|c s IH]; intros run rest; simpl.
  - intros [= <- <-]. auto.
  - destruct (p c) eqn:Ec.
    + destruct (span_while p s) as [run' rest'].
      intros [= <- <-]. destruct (IH run' rest' eq_refl) as (-> & Hrun & Hrest).
      simpl. by rewrite Ec, Hrun.
    + intros [= <- <-]. split; [done |]. split; [done |]. right. eauto.
Qed.

Lemma span_while_app (p : char → bool) (run rest : str) :
  forallb p run = true →
  (rest = [] ∨ ∃ c r, rest = c :: r ∧ p c = false) →
  span_while p (run ++ rest) = (run, rest).
Proof.
  intros Hrun Hrest. induction run as [|c run IH]; simpl in *.
  - destruct Hrest as [-> | (c & r & -> & Hc)]; [done |]. simpl.
    by rewrite Hc.
  - apply andb_true_iff in Hrun as [-> Hrun]. by rewrite IH.
Qed.

(** A match of the pattern is a share link, and what is behind it. *)
Lemma match_buildin_inv (s ident rest : str) :
  match_buildin s = Some (ident, rest) →
  s = buildin_prefix ++ ident ++ rest
  ∧ ident ≠ [] ∧ forallb is_buildin_char ident = true.
Proof.
  unfold match_buildin. destruct (startswith s buildin_prefix) eqn:Es; [| done].
  apply startswith_prefix in Es as [r ->].
  rewrite drop_app_length.
  destruct (span_while is_buildin_char r) as [run rest'] eqn:Er.
  apply span_while_spec in Er as (-> & Hrun & _).
  destruct run as [|c run]; [done |]. by intros [= <- <-].
Qed.

Lemma match_buildin_link (ident rest : str) :
  ident ≠ [] → forallb is_buildin_char ident = true →
  (rest = [] ∨ ∃ c r, rest = c :: r ∧ is_buildin_char c = false) →
  match_buildin (buildin_prefix ++ ident ++ rest) = Some (ident, rest).
Proof.
  intros Hne Hid Hrest. unfold match_buildin.
  rewrite startswith_app, drop_app_length, span_while_app by done.
  by destruct ident.
Qed.

Lemma match_buildin_not_h (c : char) (s : str) :
  c ≠ letter_h → match_buildin (c :: s) = None.
Proof.
  intros Hc. unfold match_buildin.
  change buildin_prefix with (letter_h :: lit "ttps://buildin.ai/share/").
  cbn [startswith]. by destruct (N.eqb_spec letter_h c) as [<- |].
Qed.

Lemma buildin_sub_skip (d : dict) (a s : str) :
  buildin_sub d (length a) (a ++ s) = buildin_sub d 0 s.
Proof. induction a as [|c a IH]; [by destruct s | done]. Qed.

Lemma convert_buildin_links_match (d : dict) (s ident rest : str) :
  match_buildin s = Some (ident, rest) →
  convert_buildin_links s d
  = replace_link d (buildin_prefix ++ ident) ident
    ++ convert_buildin_links rest d.
Proof.
  intros Hm. destruct (match_buildin_inv s ident rest Hm) as (Hs & _ & _).
  assert (∃ body, buildin_prefix ++ ident = letter_h :: body) as [body Hbody]
    by (by eexists).
  rewrite app_assoc in Hs. rewrite Hbody in Hs |- *. subst s.
  unfold convert_buildin_links.
  change ((letter_h :: body) ++ rest) with (letter_h :: (body ++ rest)) in *.
  cbn [buildin_sub]. rewrite Hm.
  assert (length (letter_h :: body ++ rest) - length rest = S (length body))%nat
    as -> by (cbn [length]; rewrite length_app; lia).
  cbn [take]. rewrite take_app_length.
  replace (S (length body) - 1)%nat with (length body) by lia.
  by rewrite buildin_sub_skip.
Qed.

Lemma convert_buildin_links_no_match (d : dict) (c : char) (s : str) :
  match_buildin (c :: s) = None →
  convert_buildin_links (c :: s) d = c :: convert_buildin_links s d.
Proof.
  intros Hm. unfold convert_buildin_links. cbn [buildin_sub]. by rewrite Hm.
Qed.

Lemma convert_buildin_links_no_h (d : dict) (pre s : str) :
  letter_h ∉ pre →
  convert_buildin_links (pre ++ s) d = pre ++ convert_buildin_links s d.
Proof.
  induction pre as [|c pre IH]; intros H; [done |].
  apply not_elem_of_cons in H as [Hc Hpre]. simpl.
  rewrite convert_buildin_links_no_match by (by apply match_buildin_not_h).
  by rewrite IH.
Qed.

Lemma match_buildin_longest (s ident rest : str) :
  match_buildin s = Some (ident, rest) →
  rest = [] ∨ ∃ c r, rest = c :: r ∧ is_buildin_char c = false.
Proof.
  unfold match_buildin. destruct (startswith s buildin_prefix); [| done].
  destruct (span_while is_buildin_char (drop (length buildin_prefix) s))
    as [run rest'] eqn:Er.
  apply span_while_spec in Er as (_ & _ & Hrest).
  destruct run; [done |]. by intros [= <- <-].
Qed.

(** When the replacement of every share link of the content gives the
    match back, the text is copied; [pre] is what the pass has behind
    it. *)
Lemma buildin_sub_copy (d : dict) (content : str) :
  (∀ ident, share_link_in content ident → find_instruction ident d = None) →
  ∀ s pre skip,
    content = pre ++ s → (skip ≤ length s)%nat →
    buildin_sub d skip s = drop skip s.
Proof.
  intros Hnone. induction s as [|c s IH]; intros pre skip Hcontent Hskip.
  - by destruct skip.
  - assert (content = (pre ++ [c]) ++ s) as Hnext
      by (by rewrite <- app_assoc).
    destruct skip as [|k]; cbn [buildin_sub drop].
    + destruct (match_buildin (c :: s)) as [[ident rest] |] eqn:Em.
      * destruct (match_buildin_inv _ _ _ Em) as (Hs & Hne & Hid).
        pose proof (match_buildin_longest _ _ _ Em) as Hrest.
        unfold replace_link. rewrite Hnone.
        2:{ exists pre, rest. by rewrite <- Hs. }
        assert (∃ n, length (c :: s) - length rest = S n ∧ n ≤ length s)%nat
          as (n & -> & Hn).
        { exists (length s - length rest)%nat.
          assert (length (c :: s) = 25 + length ident + length rest)%nat
            as Hlen.
          { rewrite Hs, !length_app.
            change (length buildin_prefix) with 25%nat. lia. }
          cbn [length] in *. lia. }
        replace (S n - 1)%nat with n by lia.
        rewrite (IH _ _ Hnext) by done. cbn [take app]. by rewrite take_drop.
      * rewrite (IH _ _ Hnext) by (simpl; lia). done.
    + apply (IH _ _ Hnext). simpl in Hskip. lia.
Qed.

(** The instruction [find_instruction] gives is the first, in the order of
    the dictionary, whose id or title holds the identifier. *)
Lemma find_instruction_first (ident : str) (d : dict) (instr_id : str) :
  find_instruction ident d = Some instr_id →
  ∃ d1 v d2,
    d = d1 ++ (instr_id, v) :: d2
    ∧ (substring ident instr_id ∨ substring ident (title v))
    ∧ ∀ k' v', (k', v') ∈ d1 →
               ¬ substring ident k' ∧ ¬ substring ident (title v').
Proof.
  induction d as [|[k v] d IH]; simpl; [done |].
  destruct (contains k ident || contains (title v) ident) eqn:E.
  - intros [= <-]. exists [], v, d. split; [done |].
    apply orb_true_iff in E. rewrite !contains_substring in E.
    split; [done |]. by intros ? ? ?%elem_of_nil.
  - intros (d1 & v' & d2 & -> & Hhit & Hfirst)%IH.
    exists ((k, v) :: d1), v', d2. split; [done |]. split; [done |].
    intros k' v'' [[= -> ->] | Hin]%elem_of_cons; [| by apply Hfirst].
    apply orb_false_iff in E as [E1 E2].
    rewrite <- !contains_substring. by rewrite E1, E2.
Qed.

(** X12. When no instruction's id or title holds the identifier of a
    share link of the content, the link pass returns the content as it
    is. *)
Theorem convert_buildin_links_unknown (content : str) (d : dict) :
  (∀ ident, share_link_in content ident → find_instruction ident d = None) →
  convert_buildin_links content d = content.
Proof.
  intros Hnone. unfold convert_buildin_links.
  by rewrite (buildin_sub_copy d content Hnone content [] 0%nat) by (done || lia).
Qed.

(** The one share link of "see https://buildin.ai/share/ab12" has the
    identifier "ab12". *)
Lemma share_link_in_example (ident : str) :
  share_link_in (lit "see https://buildin.ai/share/ab12") ident →
  ident = lit "ab12".
Proof.
  intros (pre & post & H & Hne & Hid & Hpost).
  vm_compute in H.
  repeat (destruct pre as [|? pre]; simpl in H;
          [try discriminate H | first [discriminate H | injection H as _ H]]).
  repeat injection H as _ H.
  repeat (destruct ident as [|? ident]; simpl in H;
          [try done | first [discriminate H | injection H as <- H]]).
  all: subst post; destruct Hpost as [Hp | (c & r & Hp & Hc)];
    try discriminate Hp; try (injection Hp as <- _; discriminate Hc);
    reflexivity.
Qed.

Lemma convert_buildin_links_unknown_witness :
  (∀ ident, share_link_in (lit "see https://buildin.ai/share/ab12") ident →
            find_instruction ident (instructions_by_id [doc_foo; doc_foo_bar])
            = None)
  ∧ convert_buildin_links (lit "see https://buildin.ai/share/ab12")
      (instructions_by_id [doc_foo; doc_foo_bar])
    = lit "see https://buildin.ai/share/ab12".
Proof.
  assert (∀ ident,
            share_link_in (lit "see https://buildin.ai/share/ab12") ident →
            find_instruction ident (instructions_by_id [doc_foo; doc_foo_bar])
            = None) as H.
  { intros ident ->%share_link_in_example. reflexivity. }
  split; [exact H |].
  exact (convert_buildin_links_unknown _ _ H).
Defined.

(** X13. A share link that follows text without the letter [h] is replaced
    by the route to the first instruction, in the order of the dictionary,
    whose id or title holds the identifier of the link; the text before it
    is copied and the pass goes on behind the identifier. *)
Theorem convert_buildin_links_link (pre ident post : str) (d : dict)
    (instr_id : str) :
  letter_h ∉ pre → ident ≠ [] → forallb is_buildin_char ident = true →
  (post = [] ∨ ∃ c r, post = c :: r ∧ is_buildin_char c = false) →
  find_instruction ident d = Some instr_id →
  convert_buildin_links (pre ++ buildin_prefix ++ ident ++ post) d
  = pre ++ lit "/instruction/" ++ instr_id ++ convert_buildin_links post d
  ∧ ∃ d1 v d2,
      d = d1 ++ (instr_id, v) :: d2
      ∧ (substring ident instr_id ∨ substring ident (title v))
      ∧ ∀ k' v', (k', v') ∈ d1 →
                 ¬ substring ident k' ∧ ¬ substring ident (title v').
Proof.
  intros Hpre Hne Hid Hpost Hfind. split; [| by apply find_instruction_first].
  rewrite convert_buildin_links_no_h by done. f_equal.
  rewrite (convert_buildin_links_match d _ ident post)
    by (by apply match_buildin_link).
  unfold replace_link. rewrite Hfind. by rewrite <- app_assoc.
Qed.

Lemma convert_buildin_links_link_witness :
  (letter_h ∉ lit "see ") ∧ lit "ab12" ≠ []
  ∧ forallb is_buildin_char (lit "ab12") = true
  ∧ find_instruction (lit "ab12")
      (instructions_by_id
         [doc_foo; set_title (lit "Guide ab12") doc_foo_bar])
    = Some (lit "b")
  ∧ convert_buildin_links
      (lit "see " ++ buildin_prefix ++ lit "ab12" ++ lit ".")
      (instructions_by_id [doc_foo; set_title (lit "Guide ab12") doc_foo_bar])
    = lit "see " ++ lit "/instruction/" ++ lit "b"
      ++ convert_buildin_links (lit ".")
           (instructions_by_id
              [doc_foo; set_title (lit "Guide ab12") doc_foo_bar]).
Proof.
  assert (letter_h ∉ lit "see ") as H1 by (by apply (bool_decide_unpack _)).
  assert (lit "ab12" ≠ []) as H2 by done.
  split_and!; [exact H1 | exact H2 | reflexivity | reflexivity |].
  refine (proj1 (convert_buildin_links_link (lit "see ") (lit "ab12") (lit ".")
                   (instructions_by_id
                      [doc_foo; set_title (lit "Guide ab12") doc_foo_bar])
                   (lit "b") H1 H2 eq_refl _ eq_refl)).
  right. by eexists _, _.
Defined.

(** ** Stripping of tags *)

Lemma replace_char_removes (old : char) (new s : str) :
  old ∉ new → old ∉ replace_char old new s.
Proof.
  intros Hnew (c & Hin & _)%list_elem_of_bind.
  destruct (N.eqb_spec c old) as [Heq | Hc]; [done |].
  apply list_elem_of_singleton in Hin. by subst.
Qed.

Lemma replace_char_keeps (x old : char) (new s : str) :
  x ∉ s → x ∉ new → x ∉ replace_char old new s.
Proof.
  intros Hs Hnew (c & Hin & Hc)%list_elem_of_bind.
  destruct (c =? old); [done |].
  apply list_elem_of_singleton in Hin. by subst.
Qed.

Lemma replace_char_app (old : char) (new a b : str) :
  replace_char old new (a ++ b)
  = replace_char old new a ++ replace_char old new b.
Proof. apply bind_app. Qed.

Lemma html_escape_app (a b : str) :
  html_escape (a ++ b) = html_escape a ++ html_escape b.
Proof. unfold html_escape. by rewrite !replace_char_app. Qed.

Lemma span_until_absent (stop : char) (s : str) :
  stop ∉ s → span_until stop s = (s, []).
Proof.
  induction s as [|c s IH]; intros H; [done |].
  apply not_elem_of_cons in H as [Hc Hs]. simpl.
  destruct (N.eqb_spec c stop) as [-> | _]; [done |]. by rewrite IH.
Qed.

Lemma match_tag_unclosed (s : str) : greater_than ∉ s → match_tag s = None.
Proof.
  intros H. destruct s as [|c s]; [done |].
  apply not_elem_of_cons in H as [_ Hs]. simpl.
  destruct (c =? less_than); [| done]. by rewrite span_until_absent.
Qed.

Lemma match_tag_not_open (c : char) (s : str) :
  c ≠ less_than → match_tag (c :: s) = None.
Proof. intros H. simpl. by destruct (N.eqb_spec c less_than). Qed.

Lemma tag_sub_skip (a s : str) : tag_sub (length a) (a ++ s) = tag_sub 0 s.
Proof. induction a as [|c a IH]; [by destruct s | done]. Qed.

Lemma tag_sub_no_open (pre s : str) :
  less_than ∉ pre → tag_sub 0 (pre ++ s) = pre ++ tag_sub 0 s.
Proof.
  induction pre as [|c pre IH]; intros H; [done |].
  apply not_elem_of_cons in H as [Hc Hpre].
  change ((c :: pre) ++ s) with (c :: (pre ++ s)). cbn [tag_sub].
  rewrite match_tag_not_open by done. by rewrite IH.
Qed.

Lemma tag_sub_unclosed (s : str) : greater_than ∉ s → tag_sub 0 s = s.
Proof.
  induction s as [|c s IH]; intros H; [done |]. cbn [tag_sub].
  rewrite match_tag_unclosed by done.
  apply not_elem_of_cons in H as [_ Hs]. by rewrite IH.
Qed.

Lemma tag_sub_tag (body post : str) :
  greater_than ∉ body →
  tag_sub 0 (less_than :: body ++ greater_than :: post) = tag_sub 0 post.
Proof.
  intros Hbody. cbn [tag_sub match_tag]. rewrite N.eqb_refl.
  rewrite span_until_stop by done.
  replace (body ++ greater_than :: post)
    with ((body ++ [greater_than]) ++ post) by (by rewrite <- app_assoc).
  rewrite <- (tag_sub_skip (body ++ [greater_than]) post). f_equal.
  cbn [length]. rewrite !length_app. cbn [length]. lia.
Qed.

(** X14. What the filter returns holds no angle bracket and no quote,
    whatever the text. *)
Theorem striptags_filter_safe (text : str) :
  (less_than ∉ striptags_filter text)
  ∧ (greater_than ∉ striptags_filter text)
  ∧ (double_quote ∉ striptags_filter text)
  ∧ (single_quote ∉ striptags_filter text).
Proof.
  unfold striptags_filter, html_escape.
  split_and!;
    repeat first
      [ apply replace_char_removes; by apply (bool_decide_unpack _)
      | apply replace_char_keeps; [| by apply (bool_decide_unpack _)] ].
Qed.

(** X15. A tag, from a [<] to the next [>], is removed with all it holds,
    the text before the first [<] is escaped only, and so is a text without
    any [>]: a [<] that is never closed stays, escaped. *)
Theorem striptags_filter_tag (pre body post : str) :
  less_than ∉ pre → greater_than ∉ body →
  striptags_filter (pre ++ less_than :: body ++ greater_than :: post)
  = html_escape pre ++ striptags_filter post
  ∧ (∀ s, greater_than ∉ s → striptags_filter s = html_escape s).
Proof.
  intros Hpre Hbody. unfold striptags_filter. split.
  - by rewrite tag_sub_no_open, tag_sub_tag, html_escape_app.
  - intros s Hs. by rewrite tag_sub_unclosed.
Qed.

Lemma striptags_filter_tag_witness :
  (less_than ∉ lit "a & ") ∧ (greater_than ∉ lit "b class='x'")
  ∧ striptags_filter
      (lit "a & " ++ less_than :: lit "b class='x'" ++ greater_than :: lit "c")
    = lit "a &amp; c".
Proof.
  assert (less_than ∉ lit "a & ") as H1 by (by apply (bool_decide_unpack _)).
  assert (greater_than ∉ lit "b class='x'") as H2
    by (by apply (bool_decide_unpack _)).
  split_and!; [exact H1 | exact H2 |].
  exact (proj1 (striptags_filter_tag (lit "a & ") (lit "b class='x'") (lit "c")
                  H1 H2)).
Defined.

(** ** The routes *)

Section RouteProperties.

Variable lower : str -> str.
Variable markdown : str -> result str.

Lemma api_search_loop_filter (query query_lower st : str) (docs : list Doc) :
  ∀ results,
    api_search_loop lower query query_lower st docs results
    = results
      ++ (api_result lower query query_lower st
            <$> filter (λ d, api_match lower query_lower st d = true) docs).
Proof.
  induction docs as [|d docs IH]; intros results; simpl.
  - by rewrite app_nil_r.
  - rewrite IH. destruct (api_match lower query_lower st d) eqn:E.
    + rewrite filter_cons_True by done. by rewrite <- app_assoc.
    + by rewrite filter_cons_False by (by rewrite E).
Qed.

(** X16. [/api/search] never returns more than ten entries; it returns
    none for a query of fewer than two characters and none for a search
    type other than [title] and [content]. *)
Theorem api_search_bounds (data : DataFolder) (query st : str) :
  (length (api_search lower data query st) ≤ 10)%nat
  ∧ ((length query < 2)%nat → api_search lower data query st = [])
  ∧ (st ≠ lit "title" → st ≠ lit "content" →
     api_search lower data query st = []).
Proof.
  unfold api_search. split_and!.
  - destruct (length query <? 2)%nat; simpl; [lia |].
    rewrite length_take. lia.
  - intros H. apply Nat.ltb_lt in H. by rewrite H.
  - intros H1 H2. destruct (length query <? 2)%nat; [done |].
    rewrite api_search_loop_filter. simpl.
    rewrite filter_none; [done |].
    intros d _. unfold api_match.
    by rewrite !bool_decide_eq_false_2 by done.
Qed.

(** X17. For a query of two characters or more, [/api/search] returns the
    entries of the first ten documents of the scan, in its order, whose
    lowered title (or content, by the search type) holds the lowered
    query; the query is not stripped. The ids returned are a subsequence of
    the ids of the scan. *)
Theorem api_search_results (data : DataFolder) (query st : str) :
  (2 ≤ length query)%nat →
  api_search lower data query st
  = take 10
      (api_result lower query (lower query) st
         <$> filter (λ d, api_match lower (lower query) st d = true)
               (scan_instructions lower data))
  ∧ result_id <$> api_search lower data query st
    `sublist_of` id <$> scan_instructions lower data.
Proof.
  intros Hlen. unfold api_search.
  assert ((length query <? 2)%nat = false) as -> by (apply Nat.ltb_ge; lia).
  rewrite api_search_loop_filter. simpl. split; [done |].
  etrans; [apply fmap_sublist, sublist_take |].
  rewrite <- list_fmap_compose.
  erewrite (list_fmap_ext (result_id ∘ api_result lower query (lower query) st)
              id); [| done].
  apply fmap_sublist, sublist_filter.
Qed.

End RouteProperties.

Lemma api_search_results_witness :
  (2 ≤ length (lit "he"))%nat
  ∧ result_id
      <$> api_search lower_basic
            {| data_exists := true;
               data_listing := Ok [folder_two_md_A; folder_heading] |}
            (lit "he") (lit "content")
    = [lit "d"].
Proof.
  assert (2 ≤ length (lit "he"))%nat as H by (vm_compute; lia).
  split; [exact H |].
  rewrite (proj1 (api_search_results lower_basic _ (lit "he") (lit "content") H)).
  reflexivity.
Defined.

(** ** Sorting of the results *)

Lemma insert_by_perm {A} (stays : A → A → bool) (x : A) (l : list A) :
  insert_by stays x l ≡ₚ x :: l.
Proof.
  induction l as [|y l IH]; [done |]. simpl.
  destruct (stays y x); [| done]. rewrite IH. apply Permutation_swap.
Qed.

Lemma stable_sort_perm {A} (stays : A → A → bool) (l : list A) :
  stable_sort stays l ≡ₚ l.
Proof.
  unfold stable_sort.
  assert (∀ acc, fold_left (λ acc x, insert_by stays x acc) l acc ≡ₚ acc ++ l)
    as H; [| apply (H [])].
  induction l as [|x l IH]; intros acc; simpl.
  - by rewrite app_nil_r.
  - rewrite IH, insert_by_perm. by rewrite <- Permutation_middle.
Qed.

Section StableSort.

Context {A : Type} (stays : A → A → bool).
Hypothesis stays_total : ∀ x y, stays x y = false → stays y x = true.
Hypothesis stays_trans :
  ∀ x y z, stays x y = true → stays y z = true → stays x z = true.

Lemma insert_by_sorted (x : A) (l : list A) :
  StronglySorted (λ a b, stays a b = true) l →
  StronglySorted (λ a b, stays a b = true) (insert_by stays x l).
Proof.
  induction l as [|y l IH]; intros Hs; simpl.
  - repeat constructor.
  - apply StronglySorted_inv in Hs as [Hl Hy].
    destruct (stays y x) eqn:E.
    + constructor; [auto |]. rewrite insert_by_perm. by constructor.
    + constructor; [by constructor |]. constructor; [auto |].
      eapply Forall_impl; [exact Hy |]. intros z Hz. simpl in Hz. eauto.
Qed.

Lemma stable_sort_sorted (l : list A) :
  StronglySorted (λ a b, stays a b = true) (stable_sort stays l).
Proof.
  unfold stable_sort.
  assert (∀ acc, StronglySorted (λ a b, stays a b = true) acc →
                 StronglySorted (λ a b, stays a b = true)
                   (fold_left (λ acc x, insert_by stays x acc) l acc))
    as H; [| apply H; constructor].
  induction l as [|x l IH]; intros acc Hacc; simpl; [done |].
  by apply IH, insert_by_sorted.
Qed.

End StableSort.

Lemma StronglySorted_mono {A} (R R' : A → A → Prop) (l : list A) :
  (∀ a b, R a b → R' a b) → StronglySorted R l → StronglySorted R' l.
Proof.
  intros HR. induction 1 as [|x l _ IH Hx]; constructor; [done |].
  eapply Forall_impl; [exact Hx | auto].
Qed.

Lemma str_leb_total (a b : str) : str_leb a b = false → str_leb b a = true.
Proof.
  revert b. induction a as [|x a IH]; intros [|y b]; simpl; try done.
  destruct (N.ltb_spec x y); [done |].
  destruct (N.ltb_spec y x); [done |]. apply IH.
Qed.

Lemma str_leb_trans (a b c : str) :
  str_leb a b = true → str_leb b c = true → str_leb a c = true.
Proof.
  revert b c. induction a as [|x a IH]; intros [|y b] [|z c]; simpl; try done.
  destruct (N.ltb_spec x y), (N.ltb_spec y z), (N.ltb_spec x z);
    try done; try lia;
    destruct (N.ltb_spec y x), (N.ltb_spec z y), (N.ltb_spec z x);
    try done; try lia.
  apply IH.
Qed.

Lemma sort_results_perm (lower : str -> str) (sort : str) (h : store)
    (instrs : list loc) :
  sort_results lower sort h instrs ≡ₚ instrs.
Proof.
  unfold sort_results. repeat case_bool_decide; try apply stable_sort_perm.
  done.
Qed.

(** X18. The sort of the results keeps them all, each as often as before.
    By [date_new] it puts every instruction before those that are no newer,
    by [date_old] before those that are no older, by [title] before those
    whose lowered title is not smaller in the order of the code points; any
    other value leaves the order as it is. *)
Theorem sort_results_sorted (lower : str -> str) (sort : str) (h : store)
    (instrs : list loc) :
  sort_results lower sort h instrs ≡ₚ instrs
  ∧ (sort = lit "date_new" →
     StronglySorted (λ a b, (modified (h !!! b) ≤ modified (h !!! a))%Z)
       (sort_results lower sort h instrs))
  ∧ (sort = lit "date_old" →
     StronglySorted (λ a b, (modified (h !!! a) ≤ modified (h !!! b))%Z)
       (sort_results lower sort h instrs))
  ∧ (sort = lit "title" →
     StronglySorted
       (λ a b, str_leb (lower (title (h !!! a))) (lower (title (h !!! b)))
               = true)
       (sort_results lower sort h instrs))
  ∧ (sort ≠ lit "date_new" → sort ≠ lit "date_old" → sort ≠ lit "title" →
     sort_results lower sort h instrs = instrs).
Proof.
  split; [apply sort_results_perm |]. unfold sort_results. split_and!.
  - intros ->. rewrite bool_decide_eq_true_2 by done.
    eapply StronglySorted_mono; [| apply stable_sort_sorted].
    + intros a b Hab. simpl in Hab. lia.
    + intros x y Hxy. simpl in *. lia.
    + intros x y z Hxy Hyz. simpl in *. lia.
  - intros ->. rewrite bool_decide_eq_false_2 by (by vm_compute).
    rewrite bool_decide_eq_true_2 by done.
    eapply StronglySorted_mono; [| apply stable_sort_sorted].
    + intros a b Hab. simpl in Hab. lia.
    + intros x y Hxy. simpl in *. lia.
    + intros x y z Hxy Hyz. simpl in *. lia.
  - intros ->. rewrite !bool_decide_eq_false_2 by (by vm_compute).
    rewrite bool_decide_eq_true_2 by done.
    apply (stable_sort_sorted
             (λ y x, str_leb (lower (title (h !!! y)))
                       (lower (title (h !!! x))))).
    + intros x y. apply str_leb_total.
    + intros x y z. apply str_leb_trans.
  - intros H1 H2 H3. by rewrite !bool_decide_eq_false_2 by done.
Qed.

(** The title sort of the two instructions of the example store: "Foo"
    lowered is smaller than "foo bar". *)
Example sort_results_title :
  sort_results lower_basic (lit "title") example_store [1; 0]%nat
  = [0; 1]%nat.
Proof. by vm_compute. Qed.

(** ** The list of [index] *)

Lemma alloc_spec (docs : list Doc) :
  ∀ (n : loc) (h : store),
    (∀ l, (l < n)%nat → (alloc n docs h).2 !!! l = h !!! l)
    ∧ (λ l, (alloc n docs h).2 !!! l) <$> (alloc n docs h).1 = docs.
Proof.
  induction docs as [|d docs IH]; intros n h; simpl; [done |].
  destruct (IH (S n) (<[n := d]> h)) as [Hold Hnew].
  destruct (alloc (S n) docs (<[n := d]> h)) as [ls h'] eqn:E.
  cbn [fst snd] in *. split.
  - intros l Hl. rewrite Hold by lia. apply lookup_total_insert_ne. lia.
  - rewrite fmap_cons, Hnew. f_equal. rewrite Hold by lia.
    apply lookup_total_insert_eq.
Qed.

(** X19. What [index] lists is never more than the total it reports, the
    number of documents of the scan; every dictionary it lists is a
    document of the scan, changed in ['preview'] at most; and for the empty
    query it lists the scan as it is, whatever the search type, the mode
    and the sort. *)
Theorem index_listing (lower : str -> str) (data : DataFolder)
    (query st sm sort : str) :
  (index lower data query st sm sort).2
  = length (scan_instructions lower data)
  ∧ (length (index lower data query st sm sort).1
     ≤ (index lower data query st sm sort).2)%nat
  ∧ (∀ d, d ∈ (index lower data query st sm sort).1 →
          ∃ d', d' ∈ scan_instructions lower data ∧ same_text d' d)
  ∧ (query = [] →
     (index lower data query st sm sort).1 = scan_instructions lower data).
Proof.
  unfold index. simpl. split; [done |].
  destruct query as [|c query].
  { split_and!; [done | | done].
    intros d Hd. exists d. split; [done | apply same_text_refl]. }
  destruct (alloc_spec (scan_instructions lower data) 0%nat ∅) as [_ Hdocs].
  destruct (alloc 0 (scan_instructions lower data) ∅) as [ls h] eqn:Ea.
  simpl in Hdocs.
  assert (c :: query ≠ []) as Hq by done.
  destruct (search_results lower ls (c :: query) st sm h Hq) as [Hres Hst].
  destruct (search_in_instructions lower ls (c :: query) st sm h)
    as [found h'] eqn:Es.
  simpl in *. split_and!; [| | done].
  - rewrite length_fmap, sort_results_perm, Hres.
    rewrite <- Hdocs, length_fmap. apply length_filter.
  - intros d (l & -> & Hl)%list_elem_of_fmap.
    rewrite sort_results_perm, Hres in Hl.
    apply list_elem_of_filter in Hl as [_ Hl].
    exists (h !!! l). split; [| apply Hst].
    rewrite <- Hdocs. by apply (list_elem_of_fmap_2 (λ l, h !!! l)).
Qed.

(** ** The page of an instruction *)

Lemma dict_get_set (k k' : str) (v : Doc) (d : dict) :
  dict_get k (dict_set k' v d)
  = if bool_decide (k' = k) then Some v else dict_get k d.
Proof.
  induction d as [|[k0 v0] d IH]; simpl.
  - done.
  - destruct (decide (k0 = k')) as [-> | Hne].
    + rewrite bool_decide_eq_true_2 by done. simpl. by case_bool_decide.
    + rewrite (bool_decide_eq_false_2 _ Hne). simpl. rewrite IH.
      repeat case_bool_decide; congruence.
Qed.

Lemma dict_set_elem (k0 : str) (v0 : Doc) (d : dict) (k : str) (v : Doc) :
  (k, v) ∈ dict_set k0 v0 d → (k, v) = (k0, v0) ∨ (k, v) ∈ d.
Proof.
  induction d as [|[k1 v1] d IH]; simpl.
  - rewrite list_elem_of_singleton. auto.
  - case_bool_decide; rewrite !elem_of_cons; intros [Heq | Hin]; auto.
    destruct (IH Hin); auto.
Qed.

(** The value under a key is the last instruction of that id. *)
Lemma dict_get_by_id (docs : list Doc) (k : str) :
  dict_get k (instructions_by_id docs)
  = last (filter (λ d, id d = k) docs).
Proof.
  unfold instructions_by_id.
  assert (∀ acc, dict_get k (fold_left (λ d instr, dict_set (id instr) instr d)
                               docs acc)
                 = match last (filter (λ d, id d = k) docs) with
                   | Some d => Some d
                   | None => dict_get k acc
                   end) as H.
  { induction docs as [|d docs IH]; intros acc; simpl; [done |].
    rewrite IH, dict_get_set, filter_cons.
    destruct (last (filter (λ d, id d = k) docs)) as [d' |] eqn:El.
    - case_decide; [| by rewrite El].
      destruct (filter (λ d, id d = k) docs); [done |].
      by rewrite last_cons_cons, El.
    - apply last_None in El. rewrite El.
      case_decide as Hd; [by rewrite bool_decide_eq_true_2 |].
      by rewrite bool_decide_eq_false_2. }
  rewrite H. by destruct (last _).
Qed.

(** Every entry of the dictionary is an instruction under its id. *)
Lemma instructions_by_id_elem (docs : list Doc) (k : str) (v : Doc) :
  (k, v) ∈ instructions_by_id docs → v ∈ docs ∧ id v = k.
Proof.
  unfold instructions_by_id.
  assert (∀ acc, (∀ k v, (k, v) ∈ acc → v ∈ docs ∧ id v = k) →
                 ∀ l, (∀ d, d ∈ l → d ∈ docs) →
                 (k, v) ∈ fold_left (λ d instr, dict_set (id instr) instr d)
                            l acc →
                 v ∈ docs ∧ id v = k) as H.
  { intros acc Hacc l. revert acc Hacc.
    induction l as [|d l IH]; intros acc Hacc Hl; simpl; [by apply Hacc |].
    apply IH.
    - intros k' v' [[= -> ->] | Hin]%dict_set_elem; [| by apply Hacc].
      split; [apply Hl; left | done].
    - intros d' Hd'. apply Hl. by right. }
  apply (H []); [by intros ? ? ?%elem_of_nil | done].
Qed.

Lemma filter_id_NoDup {A B} `{EqDecision B} (f : A → B) (l : list A) (x : A) :
  NoDup (f <$> l) → x ∈ l → filter (λ y, f y = f x) l = [x].
Proof.
  induction l as [|a l IH]; intros Hnd Hx; [by apply elem_of_nil in Hx |].
  rewrite fmap_cons in Hnd. apply NoDup_cons in Hnd as [Ha Hnd].
  rewrite filter_cons. apply elem_of_cons in Hx as [-> | Hx].
  - rewrite decide_True by done. f_equal. apply filter_none.
    intros y Hy Hf. apply Ha. rewrite <- Hf. by apply list_elem_of_fmap_2.
  - rewrite decide_False; [by apply IH |].
    intros Hf. apply Ha. rewrite Hf. by apply list_elem_of_fmap_2.
Qed.

Lemma related_instructions_elem (d : dict) (k content : str) (r : Doc) :
  r ∈ related_instructions d k content →
  ∃ k', (k', r) ∈ d ∧ k' ≠ k
        ∧ (substring k' content ∨ substring (title r) content).
Proof.
  induction d as [|[k1 v1] d IH]; simpl; [by intros ?%elem_of_nil |].
  destruct (bool_decide (k1 ≠ k)
            && (contains content k1 || contains content (title v1))) eqn:E.
  - intros [-> | Hr]%elem_of_cons.
    + apply andb_true_iff in E as [Hk Hc]. apply bool_decide_eq_true in Hk.
      apply orb_true_iff in Hc. rewrite !contains_substring in Hc.
      exists k1. split; [left | done].
    + destruct (IH Hr) as (k' & ? & ? & ?). exists k'. split; [by right | done].
  - intros Hr. destruct (IH Hr) as (k' & ? & ? & ?).
    exists k'. split; [by right | done].
Qed.

Section PageProperties.

Variable lower : str -> str.
Variable markdown : str -> result str.

(** X20. With distinct folder names, every document of the scan is shown
    under its id, with its own title and modification time and the total of
    the scan; an id that no document of the scan has gives the page "not
    found". *)
Theorem show_instruction_by_id (folders : list Folder) (d : Doc)
    (instruction_id : str) :
  NoDup (folder_name <$> folders) →
  let data := {| data_exists := true; data_listing := Ok folders |} in
  (d ∈ scan_instructions lower data →
   show_instruction lower markdown data (id d)
   = Instruction (title d)
       (markdown_to_html markdown (content d) (id d)
          (instructions_by_id (scan_instructions lower data)))
       (related_instructions
          (instructions_by_id (scan_instructions lower data)) (id d)
          (content d))
       (length (scan_instructions lower data)) (modified d))
  ∧ (instruction_id ∉ id <$> scan_instructions lower data →
     show_instruction lower markdown data instruction_id
     = NotFound instruction_id).
Proof.
  intros Hnd data.
  assert (NoDup (id <$> scan_instructions lower data)) as Hids.
  { destruct (scan_ids_from_folders lower folders) as (names & Hperm & Hsub).
    subst data. rewrite Hperm. by eapply sublist_NoDup. }
  unfold show_instruction. split.
  - intros Hd. rewrite dict_get_by_id.
    by rewrite (filter_id_NoDup id _ d Hids Hd).
  - intros Hid. rewrite dict_get_by_id.
    rewrite filter_none; [done |].
    intros d' Hd' Heq. apply Hid. rewrite <- Heq.
    by apply list_elem_of_fmap_2.
Qed.

(** X21. On the page of an instruction the total is the number of
    documents of the scan, the title and the modification time are those of
    a document of the scan with the id asked for, and every related
    instruction is another document of the scan, with a different id, whose
    id or title stands in the content of the one shown. *)
Theorem show_instruction_related (data : DataFolder) (instruction_id : str)
    (t c : str) (related : list Doc) (n : nat) (m : Z) :
  show_instruction lower markdown data instruction_id
  = Instruction t c related n m →
  n = length (scan_instructions lower data)
  ∧ ∃ d, d ∈ scan_instructions lower data ∧ id d = instruction_id
         ∧ t = title d ∧ m = modified d
         ∧ ∀ r, r ∈ related →
                r ∈ scan_instructions lower data ∧ id r ≠ instruction_id
                ∧ (substring (id r) (content d)
                   ∨ substring (title r) (content d)).
Proof.
  unfold show_instruction. rewrite dict_get_by_id.
  destruct (last (filter (λ d, id d = instruction_id)
                    (scan_instructions lower data))) as [d |] eqn:El; [| done].
  intros [= <- <- <- <- <-]. split; [done |]. exists d.
  apply last_Some_elem_of, list_elem_of_filter in El as [Hid Hd].
  split_and!; try done.
  intros r (k' & Hin & Hne & Hsub)%related_instructions_elem.
  apply instructions_by_id_elem in Hin as [Hr <-]. done.
Qed.

End PageProperties.

Lemma show_instruction_by_id_witness :
  NoDup (folder_name <$> [folder_two_md_A; folder_heading])
  ∧ show_instruction lower_basic markdown_plain
      {| data_exists := true;
         data_listing := Ok [folder_two_md_A; folder_heading] |}
      (lit "guide")
    = Instruction (lit "Foo") (lit "# Foo" ++ [newline] ++ lit "body")
        [extract_instruction_info lower_basic folder_two_md_A] 2 1.
Proof.
  assert (NoDup (folder_name <$> [folder_two_md_A; folder_heading]))
    as Hnd by (by apply (bool_decide_unpack _)).
  split; [exact Hnd |].
  refine (proj1 (show_instruction_by_id lower_basic markdown_plain
                   [folder_two_md_A; folder_heading]
                   (extract_instruction_info lower_basic folder_heading)
                   [] Hnd) _).
  apply scan_keeps; [right; left | reflexivity | done].
Defined.

Lemma show_instruction_related_witness :
  show_instruction lower_basic markdown_plain
    {| data_exists := true;
       data_listing := Ok [folder_two_md_A; folder_heading] |}
    (lit "guide")
  = Instruction (lit "Foo") (lit "# Foo" ++ [newline] ++ lit "body")
      [extract_instruction_info lower_basic folder_two_md_A] 2 1
  ∧ 2%nat
    = length (scan_instructions lower_basic
                {| data_exists := true;
                   data_listing := Ok [folder_two_md_A; folder_heading] |}).
Proof.
  assert (show_instruction lower_basic markdown_plain
            {| data_exists := true;
               data_listing := Ok [folder_two_md_A; folder_heading] |}
            (lit "guide")
          = Instruction (lit "Foo") (lit "# Foo" ++ [newline] ++ lit "body")
              [extract_instruction_info lower_basic folder_two_md_A] 2 1)
    as H by reflexivity.
  split; [exact H |].
  exact (proj1 (show_instruction_related lower_basic markdown_plain _ _ _ _ _
                  _ _ H)).
Defined.
